(** * A hash chain over String and Array values (src/main.py)

    The development embeds the program of src/main.py:
    - the values [String] and [Array] with their [digest] properties,
    - [Node], whose constructor copies the hasher of its parent and feeds it
      the digest of its value,
    - [Tree] with [append], [from_iter] and [verify],
    - the steps of the [__main__] block.

    Python objects that are shared and can be mutated live in a store
    ([heap]); a reference is an address.  A hasher that is local to one
    call and never escapes it is threaded as a value. *)

From Stdlib Require Import ZArith List Lia.
From Stdlib Require Import Init.Byte Strings.String Strings.Ascii.
From stdpp Require Import gmap strings list fin_maps.
Import ListNotations.
Local Open Scope Z_scope.

(** ** Bytes *)

Abbreviation bytes := (list byte).

Definition byte_of_Z (z : Z) : byte :=
  match Byte.of_N (Z.to_N (z mod 256)) with Some b => b | None => x00 end.

Definition Z_of_byte (b : byte) : Z := Z.of_N (Byte.to_N b).

(** ** hashlib.sha256

    The hash function itself is the one of FIPS 180-4, on 32-bit words
    written as [Z] with the wrap-around explicit. *)

Module SHA256.

Definition word := Z.

Definition wrap (x : Z) : word := x mod 2 ^ 32.
Definition add32 (x y : word) : word := wrap (x + y).
Definition rotr (n : Z) (x : word) : word :=
  Z.lor (Z.shiftr x n) (wrap (Z.shiftl x (32 - n))).
Definition shr (n : Z) (x : word) : word := Z.shiftr x n.
Definition not32 (x : word) : word := Z.lxor x 0xffffffff.

Definition Ch (x y z : word) : word :=
  Z.lxor (Z.land x y) (Z.land (not32 x) z).
Definition Maj (x y z : word) : word :=
  Z.lxor (Z.lxor (Z.land x y) (Z.land x z)) (Z.land y z).
Definition Sigma0 (x : word) : word :=
  Z.lxor (Z.lxor (rotr 2 x) (rotr 13 x)) (rotr 22 x).
Definition Sigma1 (x : word) : word :=
  Z.lxor (Z.lxor (rotr 6 x) (rotr 11 x)) (rotr 25 x).
Definition sigma0 (x : word) : word :=
  Z.lxor (Z.lxor (rotr 7 x) (rotr 18 x)) (shr 3 x).
Definition sigma1 (x : word) : word :=
  Z.lxor (Z.lxor (rotr 17 x) (rotr 19 x)) (shr 10 x).

(** The constants are the ones FIPS 180-4 defines from the prime numbers:
    the round constants are the first 32 bits of the fractional parts of
    the cube roots of the first 64 primes, the initial hash value those of
    the square roots of the first 8 primes. *)
Definition is_prime (n : Z) : bool :=
  (1 <? n) &&
  forallb (fun d => negb (n mod d =? 0))
          (map Z.of_nat (seq 2 (Z.to_nat n - 2))).

Definition primes_upto (n : nat) : list Z :=
  filter is_prime (map Z.of_nat (seq 2 (n - 1))).

(** The largest r with r ^ 3 <= n, one bit at a time from bit [bits - 1]. *)
Fixpoint cube_root_bits (bits : nat) (n r : Z) : Z :=
  match bits with
  | O => r
  | S b =>
      let r' := r + 2 ^ Z.of_nat b in
      cube_root_bits b n (if r' * r' * r' <=? n then r' else r)
  end.

Definition frac_cube_root (p : Z) : word :=
  wrap (cube_root_bits 36 (p * 2 ^ 96) 0).

Definition frac_square_root (p : Z) : word := wrap (Z.sqrt (p * 2 ^ 64)).

Definition K : list word :=
  Eval vm_compute in map frac_cube_root (primes_upto 311).

(** The eight working variables. *)
Record state := State {
  sa : word; sb : word; sc : word; sd : word;
  se : word; sf : word; sg : word; sh : word }.

Definition state_of_list (l : list word) : state :=
  State (nth 0 l 0) (nth 1 l 0) (nth 2 l 0) (nth 3 l 0)
        (nth 4 l 0) (nth 5 l 0) (nth 6 l 0) (nth 7 l 0).

Definition H0 : state :=
  Eval vm_compute in state_of_list (map frac_square_root (primes_upto 19)).

(** Words are read and written big-endian. *)
Definition word_of_bytes (b0 b1 b2 b3 : byte) : word :=
  Z_of_byte b0 * 16777216 + Z_of_byte b1 * 65536
  + Z_of_byte b2 * 256 + Z_of_byte b3.

Definition bytes_of_word (w : word) : bytes :=
  [ byte_of_Z (Z.shiftr w 24); byte_of_Z (Z.shiftr w 16);
    byte_of_Z (Z.shiftr w 8); byte_of_Z w ].

Fixpoint words_of_bytes (bs : bytes) : list word :=
  match bs with
  | b0 :: b1 :: b2 :: b3 :: rest =>
      word_of_bytes b0 b1 b2 b3 :: words_of_bytes rest
  | _ => []
  end.

(** Padding: one 0x80 byte, zeros up to 56 modulo 64, then the length
    of the message in bits as a 64-bit big-endian integer. *)
Definition pad (msg : bytes) : bytes :=
  let len := Z.of_nat (length msg) in
  let bits := len * 8 in
  msg ++ [x80] ++ repeat x00 (Z.to_nat ((55 - len) mod 64))
      ++ bytes_of_word (Z.shiftr bits 32) ++ bytes_of_word bits.

(** The message schedule, kept newest word first while it is extended:
    W[t] = sigma1 W[t-2] + W[t-7] + sigma0 W[t-15] + W[t-16]. *)
Fixpoint extend (n : nat) (rev_w : list word) : list word :=
  match n with
  | O => rev_w
  | S n' =>
      let w := add32 (add32 (sigma1 (nth 1 rev_w 0)) (nth 6 rev_w 0))
                     (add32 (sigma0 (nth 14 rev_w 0)) (nth 15 rev_w 0)) in
      extend n' (w :: rev_w)
  end.

Definition schedule (block : list word) : list word :=
  rev (extend 48 (rev block)).

Definition round (s : state) (kw : word * word) : state :=
  let '(k, w) := kw in
  let t1 := add32 (add32 (add32 (add32 (sh s) (Sigma1 (se s)))
                                (Ch (se s) (sf s) (sg s))) k) w in
  let t2 := add32 (Sigma0 (sa s)) (Maj (sa s) (sb s) (sc s)) in
  State (add32 t1 t2) (sa s) (sb s) (sc s)
        (add32 (sd s) t1) (se s) (sf s) (sg s).

Definition compress (s : state) (block : list word) : state :=
  let r := fold_left round (combine K (schedule block)) s in
  State (add32 (sa s) (sa r)) (add32 (sb s) (sb r))
        (add32 (sc s) (sc r)) (add32 (sd s) (sd r))
        (add32 (se s) (se r)) (add32 (sf s) (sf r))
        (add32 (sg s) (sg r)) (add32 (sh s) (sh r)).

Fixpoint blocks (n : nat) (ws : list word) (s : state) : state :=
  match n with
  | O => s
  | S n' => blocks n' (skipn 16 ws) (compress s (firstn 16 ws))
  end.

Definition output (s : state) : bytes :=
  bytes_of_word (sa s) ++ bytes_of_word (sb s) ++
  bytes_of_word (sc s) ++ bytes_of_word (sd s) ++
  bytes_of_word (se s) ++ bytes_of_word (sf s) ++
  bytes_of_word (sg s) ++ bytes_of_word (sh s).

Definition sha256 (msg : bytes) : bytes :=
  let ws := words_of_bytes (pad msg) in
  output (blocks (Nat.div (length ws) 16) ws H0).

End SHA256.

Arguments SHA256.sha256 : simpl never.

(** Lower-case hexadecimal, two characters a byte, as [hexdigest] prints. *)
Definition hexchar (n : Z) : ascii :=
  nth (Z.to_nat n) (list_ascii_of_string "0123456789abcdef") "0"%char.

Fixpoint hex (bs : bytes) : string :=
  match bs with
  | [] => EmptyString
  | b :: rest =>
      String (hexchar (Z_of_byte b / 16))
             (String (hexchar (Z_of_byte b mod 16)) (hex rest))
  end.

(** A hashlib hash object is described by its documented contract: it
    holds the bytes fed so far, [update] appends to them ("repeated calls
    are equivalent to a single call with the concatenation of all the
    arguments"), [copy] clones the object and [digest] hashes what was
    fed. *)
Module hashlib.

Definition Hash := bytes.

Definition sha256 (data : bytes) : Hash := data.
Definition update (m : Hash) (data : bytes) : Hash := m ++ data.
Definition copy (m : Hash) : Hash := m.
Definition digest (m : Hash) : bytes := SHA256.sha256 m.
Definition hexdigest (m : Hash) : string := hex (digest m).

End hashlib.

Arguments hashlib.digest : simpl never.
Arguments hashlib.hexdigest : simpl never.

(** INIT_HASHER = hashlib.sha256(b"") *)
Definition INIT_HASHER : hashlib.Hash := hashlib.sha256 [].

(** ** Exceptions *)

Inductive exn :=
| UnicodeEncodeError
| AssertionError
| IndexError
| AttributeError.

Inductive result (A : Type) :=
| Ok (a : A)
| Raise (e : exn).
Arguments Ok {A} a.
Arguments Raise {A} e.

#[global] Instance exn_eq_dec : EqDecision exn.
Proof. solve_decision. Defined.

#[global] Instance result_ret : MRet result := @Ok.
#[global] Instance result_bind : MBind result :=
  fun A B f m => match m with Ok a => f a | Raise e => Raise e end.

(** ** Python str and str.encode()

    A str is a sequence of code points.  [encode()] is UTF-8 with strict
    error handling: a surrogate code point has no encoding. *)

Definition codepoint := Z.
Abbreviation pystr := (list codepoint).

Definition valid_codepoint (c : codepoint) : Prop := 0 <= c <= 0x10FFFF.

Definition is_surrogate (c : codepoint) : bool :=
  (0xD800 <=? c) && (c <=? 0xDFFF).

Definition continuation (x : Z) : byte :=
  byte_of_Z (Z.lor 0x80 (Z.land x 0x3F)).

Definition utf8_codepoint (c : codepoint) : result bytes :=
  if c <? 0x80 then Ok [byte_of_Z c]
  else if c <? 0x800 then
    Ok [byte_of_Z (Z.lor 0xC0 (Z.shiftr c 6)); continuation c]
  else if is_surrogate c then Raise UnicodeEncodeError
  else if c <? 0x10000 then
    Ok [byte_of_Z (Z.lor 0xE0 (Z.shiftr c 12));
        continuation (Z.shiftr c 6); continuation c]
  else
    Ok [byte_of_Z (Z.lor 0xF0 (Z.shiftr c 18));
        continuation (Z.shiftr c 12);
        continuation (Z.shiftr c 6); continuation c].

Fixpoint str_encode (s : pystr) : result bytes :=
  match s with
  | [] => Ok []
  | c :: rest =>
      b ← utf8_codepoint c;
      bs ← str_encode rest;
      Ok (b ++ bs)
  end.

(** Reading UTF-8 back, to state that an encoding loses nothing: the
    first code point of a byte sequence and the bytes after it. *)
Definition utf8_decode_first (bs : bytes) : option (codepoint * bytes) :=
  match bs with
  | [] => None
  | b0 :: r0 =>
      let x0 := Z_of_byte b0 in
      if x0 <? 0x80 then Some (x0, r0)
      else if x0 <? 0xE0 then
        match r0 with
        | b1 :: r1 =>
            Some ((x0 - 0xC0) * 64 + (Z_of_byte b1 - 0x80), r1)
        | _ => None
        end
      else if x0 <? 0xF0 then
        match r0 with
        | b1 :: b2 :: r2 =>
            Some ((x0 - 0xE0) * 4096 + (Z_of_byte b1 - 0x80) * 64
                  + (Z_of_byte b2 - 0x80), r2)
        | _ => None
        end
      else
        match r0 with
        | b1 :: b2 :: b3 :: r3 =>
            Some ((x0 - 0xF0) * 262144 + (Z_of_byte b1 - 0x80) * 4096
                  + (Z_of_byte b2 - 0x80) * 64 + (Z_of_byte b3 - 0x80), r3)
        | _ => None
        end
  end.

Fixpoint utf8_decode_fuel (fuel : nat) (bs : bytes) : option pystr :=
  match bs with
  | [] => Some []
  | _ =>
      match fuel with
      | O => None
      | S fuel' =>
          match utf8_decode_first bs with
          | Some (c, rest) =>
              match utf8_decode_fuel fuel' rest with
              | Some cs => Some (c :: cs)
              | None => None
              end
          | None => None
          end
      end
  end.

(** Every code point takes at least one byte. *)
Definition utf8_decode (bs : bytes) : option pystr :=
  utf8_decode_fuel (length bs) bs.

(** An ASCII literal of the source as a str. *)
Definition str_lit (s : string) : pystr :=
  map (fun a => Z.of_N (N_of_ascii a)) (list_ascii_of_string s).

(** ** The store *)

Definition addr := positive.

Inductive obj :=
| OString (_value : pystr)
    (* String: _value is a str *)
| OArray (_value : list addr)
    (* Array: _value is the list made by list(items); the list belongs to
       this object alone and is kept inside it *)
| OHasher (m : hashlib.Hash)
    (* a hashlib object held in Node._hasher *)
| ONode (_hasher : addr) (_value : addr) (_parent : option addr)
| OTree (_root : option addr).

Abbreviation heap := (gmap addr obj).

Definition alloc (o : obj) (h : heap) : addr * heap :=
  let a := fresh (dom h) in (a, <[a := o]> h).

(** ** Values *)

Definition String_new (s : pystr) (h : heap) : addr * heap :=
  alloc (OString s) h.

Definition Array_new (items : list addr) (h : heap) : addr * heap :=
  alloc (OArray items) h.

(** String.digest: hashlib.sha256(self._value.encode()).digest() *)
Definition String_digest (s : pystr) : result bytes :=
  b ← str_encode s;
  Ok (hashlib.digest (hashlib.sha256 b)).

(** The elements of an Array are annotated [String]; an element that is
    no String object is outside that type and reported as an error. *)
Definition item_digest (h : heap) (v : addr) : result bytes :=
  match h !! v with
  | Some (OString s) => String_digest s
  | _ => Raise AttributeError
  end.

(** for v in self._value: hasher.update(v.digest) *)
Fixpoint Array_digest_loop (h : heap) (items : list addr)
    (hasher : hashlib.Hash) : result hashlib.Hash :=
  match items with
  | [] => Ok hasher
  | v :: rest =>
      d ← item_digest h v;
      Array_digest_loop h rest (hashlib.update hasher d)
  end.

Definition Array_digest (h : heap) (items : list addr) : result bytes :=
  hasher ← Array_digest_loop h items (hashlib.copy INIT_HASHER);
  Ok (hashlib.digest hasher).

(** value.digest, dispatched on the class of the object. *)
Definition Value_digest (h : heap) (v : addr) : result bytes :=
  match h !! v with
  | Some (OString s) => String_digest s
  | Some (OArray items) => Array_digest h items
  | _ => Raise AttributeError
  end.

(** ** Node *)

Definition hasher_copy (a : addr) (h : heap) : result (addr * heap) :=
  match h !! a with
  | Some (OHasher m) => Ok (alloc (OHasher (hashlib.copy m)) h)
  | _ => Raise AttributeError
  end.

Definition hasher_update (a : addr) (data : bytes) (h : heap) : result heap :=
  match h !! a with
  | Some (OHasher m) => Ok (<[a := OHasher (hashlib.update m data)]> h)
  | _ => Raise AttributeError
  end.

(** Node.__init__.  The object is written to the store once its three
    attributes are known. *)
Definition Node_init (value : addr) (parent : option addr) (h : heap)
    : result (addr * heap) :=
  '(hasher, h1) ←
    match parent with
    | None => Ok (alloc (OHasher (hashlib.copy INIT_HASHER)) h)
    | Some p =>
        match h !! p with
        | Some (ONode ph _ _) => hasher_copy ph h
        | _ => Raise AttributeError
        end
    end;
  d ← Value_digest h1 value;
  h2 ← hasher_update hasher d h1;
  Ok (alloc (ONode hasher value parent) h2).

(** Node.hash: self._hasher.hexdigest() *)
Definition Node_hash (h : heap) (n : addr) : result string :=
  match h !! n with
  | Some (ONode hp _ _) =>
      match h !! hp with
      | Some (OHasher m) => Ok (hashlib.hexdigest m)
      | _ => Raise AttributeError
      end
  | _ => Raise AttributeError
  end.

Definition Node_value (h : heap) (n : addr) : result addr :=
  match h !! n with
  | Some (ONode _ v _) => Ok v
  | _ => Raise AttributeError
  end.

Definition Node_parent (h : heap) (n : addr) : result (option addr) :=
  match h !! n with
  | Some (ONode _ _ p) => Ok p
  | _ => Raise AttributeError
  end.

(** ** Tree *)

Definition Tree_new (h : heap) : addr * heap := alloc (OTree None) h.

Definition Tree_root (h : heap) (t : addr) : result (option addr) :=
  match h !! t with
  | Some (OTree r) => Ok r
  | _ => Raise AttributeError
  end.

(** self._root = Node(value, parent=self.root) *)
Definition Tree_append (t : addr) (value : addr) (h : heap) : result heap :=
  r ← Tree_root h t;
  '(n, h1) ← Node_init value r h;
  Ok (<[t := OTree (Some n)]> h1).

Fixpoint from_iter_loop (t : addr) (values : list addr) (h : heap)
    : result heap :=
  match values with
  | [] => Ok h
  | v :: rest =>
      h1 ← Tree_append t v h;
      from_iter_loop t rest h1
  end.

Definition Tree_from_iter (values : list addr) (h : heap)
    : result (addr * heap) :=
  let '(t, h0) := Tree_new h in
  h1 ← from_iter_loop t values h0;
  Ok (t, h1).

(** The first loop of verify.  It ends when the parent links reach None.
    A chain of links that never reaches None keeps the loop running for
    ever; a walk through more nodes than the store has objects is such a
    chain, and the outcome is then [None]. *)
Fixpoint verify_walk (fuel : nat) (h : heap) (node : option addr)
    (ancestors : list addr) : option (result (list addr)) :=
  match node with
  | None => Some (Ok ancestors)
  | Some n =>
      match fuel with
      | O => None
      | S fuel' =>
          match h !! n with
          | Some (ONode _ _ p) => verify_walk fuel' h p (n :: ancestors)
          | _ => Some (Raise AttributeError)
          end
      end
  end.

(** for node in ancestors: hasher.update(node.value.digest) *)
Fixpoint verify_fold (h : heap) (ancestors : list addr)
    (hasher : hashlib.Hash) : result hashlib.Hash :=
  match ancestors with
  | [] => Ok hasher
  | n :: rest =>
      v ← Node_value h n;
      d ← Value_digest h v;
      verify_fold h rest (hashlib.update hasher d)
  end.

Definition verify_check (h : heap) (root : option addr)
    (hasher : hashlib.Hash) : result unit :=
  match root with
  | None => Ok tt
  | Some r =>
      stored ← Node_hash h r;
      if decide (hashlib.hexdigest hasher = stored) then Ok tt
      else Raise AssertionError
  end.

Definition Tree_verify (h : heap) (t : addr) : option (result unit) :=
  match Tree_root h t with
  | Raise e => Some (Raise e)
  | Ok root =>
      match verify_walk (size h) h root [] with
      | None => None
      | Some (Raise e) => Some (Raise e)
      | Some (Ok ancestors) =>
          Some (hasher ← verify_fold h ancestors (hashlib.copy INIT_HASHER);
                verify_check h root hasher)
      end
  end.

(** ** The __main__ block *)

(** values = [String("foo"), Array([String("bar"), String("baz")])]
    tree = Tree.from_iter(values) *)
Definition main_values (h : heap) : list addr * heap :=
  let '(foo, h) := String_new (str_lit "foo") h in
  let '(bar, h) := String_new (str_lit "bar") h in
  let '(baz, h) := String_new (str_lit "baz") h in
  let '(arr, h) := Array_new [bar; baz] h in
  ([foo; arr], h).

Definition main_build (h : heap) : result (addr * heap) :=
  let '(values, h) := main_values h in
  Tree_from_iter values h.

(** lst[i] = x on the list of an Array object *)
Definition list_setitem (a : addr) (i : nat) (x : addr) (h : heap)
    : result heap :=
  match h !! a with
  | Some (OArray items) =>
      if decide (i < length items)%nat
      then Ok (<[a := OArray (<[i := x]> items)]> h)
      else Raise IndexError
  | _ => Raise AttributeError
  end.

(** assert tree.root is not None
    assert tree.root._parent is not None
    tree.root._value._value[0] = String("quux")
    The right-hand side of the assignment is evaluated first. *)
Definition main_tamper (t : addr) (h : heap) : result heap :=
  r ← Tree_root h t;
  match r with
  | None => Raise AssertionError
  | Some root =>
      p ← Node_parent h root;
      match p with
      | None => Raise AssertionError
      | Some _ =>
          let '(quux, h1) := String_new (str_lit "quux") h in
          r1 ← Tree_root h1 t;
          match r1 with
          | None => Raise AttributeError
          | Some root1 =>
              v ← Node_value h1 root1;
              list_setitem v 0 quux h1
          end
      end
  end.

(** Tree.from_iter([String("x")]) *)
Definition single_x (h : heap) : result (addr * heap) :=
  let '(x, h) := String_new (str_lit "x") h in
  Tree_from_iter [x] h.

(** ** The stores of the __main__ block, step by step *)

Definition heap_of (r : result heap) : heap :=
  match r with Ok h => h | Raise _ => ∅ end.

(** 1: String("foo"), 2: String("bar"), 3: String("baz"),
    4: Array([2, 3]) *)
Definition ex_values : heap := snd (main_values ∅).
(** 5: Tree() *)
Definition ex_empty : heap := snd (Tree_new ex_values).
(** 6: the hasher of node 7, 7: Node(1, None) *)
Definition ex_one : heap := heap_of (Tree_append 5%positive 1%positive ex_empty).
(** 8: the hasher of node 9, 9: Node(4, 7) *)
Definition ex_two : heap := heap_of (Tree_append 5%positive 4%positive ex_one).
(** 10: String("quux"), and the list of 4 is [10, 3] *)
Definition ex_tampered : heap := heap_of (main_tamper 5%positive ex_two).

(** Node(4, 7) in the store where the tail is node 7 *)
Definition ex_init : addr * heap :=
  match Node_init 4%positive (Some 7%positive) ex_one with
  | Ok x => x
  | Raise _ => (1%positive, ∅)
  end.

(** The store of single_x: 1: String("x"), 2: Tree(), 3: the hasher of
    node 4, 4: Node(1, None) *)
Definition ex_single : heap :=
  match single_x ∅ with Ok (_, h) => h | Raise _ => ∅ end.

Definition hash_of (r : result string) : string :=
  match r with Ok s => s | Raise _ => EmptyString end.

Definition bytes_of (r : result bytes) : bytes :=
  match r with Ok b => b | Raise _ => [] end.

(** ** Notions used to state the properties *)

(** self._hasher.digest(): the bytes that [Node_hash] prints in hex. *)
Definition Node_cumulative (h : heap) (n : addr) : result bytes :=
  match h !! n with
  | Some (ONode hp _ _) =>
      match h !! hp with
      | Some (OHasher m) => Ok (hashlib.digest m)
      | _ => Raise AttributeError
      end
  | _ => Raise AttributeError
  end.

(** [chain h node ns]: following the parent links from [node] reaches
    None after passing through the nodes [ns], newest first. *)
Inductive chain (h : heap) : option addr -> list addr -> Prop :=
| chain_nil : chain h None []
| chain_cons n hp v p ns :
    h !! n = Some (ONode hp v p) ->
    chain h p ns ->
    chain h (Some n) (n :: ns).

(** node.value.digest *)
Definition node_digest (h : heap) (n : addr) : result bytes :=
  v ← Node_value h n;
  Value_digest h v.

Fixpoint chain_digests (h : heap) (ns : list addr) : result (list bytes) :=
  match ns with
  | [] => Ok []
  | n :: rest =>
      d ← node_digest h n;
      ds ← chain_digests h rest;
      Ok (d :: ds)
  end.

(** The digest of the chain [ns] (newest first) computed from the values
    alone, oldest first, in one pass. *)
Definition recompute (h : heap) (ns : list addr) : result bytes :=
  ds ← chain_digests h (rev ns);
  Ok (SHA256.sha256 (concat ds)).

(** The number of nodes of a tree: the length of the list of ancestors
    that verify collects. *)
Definition Tree_len (h : heap) (t : addr) : option nat :=
  match Tree_root h t with
  | Ok root =>
      match verify_walk (size h) h root [] with
      | Some (Ok ancestors) => Some (length ancestors)
      | _ => None
      end
  | Raise _ => None
  end.

Definition is_value (o : option obj) : bool :=
  match o with
  | Some (OString _) | Some (OArray _) => true
  | _ => false
  end.

(** The stores a caller reaches with the constructors and [append] alone:
    a Tree is made (in a store that may hold values made before), further
    values are made, values are appended; no attribute and no list is
    assigned to afterwards. *)
Inductive built (t : addr) : heap -> Prop :=
| built_Tree h0 h :
    Tree_new h0 = (t, h) ->
    built t h
| built_String s h a h' :
    built t h -> String_new s h = (a, h') -> built t h'
| built_Array items h a h' :
    built t h -> Array_new items h = (a, h') -> built t h'
| built_append v h h' :
    built t h -> Tree_append t v h = Ok h' -> built t h'.

(** What the accumulator of [node] has been fed. *)
Definition fed (h : heap) (node : option addr) (m : hashlib.Hash) : Prop :=
  match node with
  | None => m = hashlib.copy INIT_HASHER
  | Some n =>
      exists hp v p, h !! n = Some (ONode hp v p) /\ h !! hp = Some (OHasher m)
  end.

(** The tail's accumulator holds the digests of the values of the chain,
    oldest first. *)
Definition consistent (h : heap) (t : addr) : Prop :=
  exists root ns ds,
    h !! t = Some (OTree root) /\ chain h root ns /\
    chain_digests h (rev ns) = Ok ds /\ fed h root (concat ds).

(** ** Display: __repr__

    [str.__repr__] belongs to the interpreter; it is a parameter here.
    [str.isspace] is true of the code points whose Unicode category is Zs
    or whose bidirectional class is WS, B or S. *)

Definition isspace (c : codepoint) : bool :=
  ((0x09 <=? c) && (c <=? 0x0D)) || ((0x1C <=? c) && (c <=? 0x20))
  || (c =? 0x85) || (c =? 0xA0) || (c =? 0x1680)
  || ((0x2000 <=? c) && (c <=? 0x200A))
  || (c =? 0x2028) || (c =? 0x2029) || (c =? 0x202F)
  || (c =? 0x205F) || (c =? 0x3000).

Fixpoint lstrip (s : pystr) : pystr :=
  match s with
  | c :: rest => if isspace c then lstrip rest else s
  | [] => []
  end.

(** str.rstrip() *)
Definition rstrip (s : pystr) : pystr := rev (lstrip (rev s)).

(** sep.join(parts) *)
Fixpoint join (sep : pystr) (parts : list pystr) : pystr :=
  match parts with
  | [] => []
  | [r] => r
  | r :: rest => r ++ sep ++ join sep rest
  end.

Section repr.
Variable str_repr : pystr -> pystr.

Definition item_repr (h : heap) (v : addr) : result pystr :=
  match h !! v with
  | Some (OString s) => Ok (str_repr s)
  | _ => Raise AttributeError
  end.

(** The elements of list.__repr__, separated by ", " *)
Fixpoint list_repr_items (h : heap) (items : list addr) : result pystr :=
  match items with
  | [] => Ok []
  | [v] => item_repr h v
  | v :: rest =>
      r ← item_repr h v;
      rs ← list_repr_items h rest;
      Ok (r ++ str_lit ", " ++ rs)
  end.

(** Value.__repr__: self._value.__repr__() *)
Definition Value_repr (h : heap) (v : addr) : result pystr :=
  match h !! v with
  | Some (OString s) => Ok (str_repr s)
  | Some (OArray items) =>
      rs ← list_repr_items h items;
      Ok (str_lit "[" ++ rs ++ str_lit "]")
  | _ => Raise AttributeError
  end.

(** Node.__repr__: f"{self.value}({self.hash})" *)
Definition Node_repr (h : heap) (n : addr) : result pystr :=
  v ← Node_value h n;
  r ← Value_repr h v;
  hash ← Node_hash h n;
  Ok (r ++ str_lit "(" ++ str_lit hash ++ str_lit ")").

(** The loop of Tree.__repr__: buf += f"{node} "; node = node._parent.
    As in verify, [None] stands for a loop that does not end. *)
Fixpoint repr_walk (fuel : nat) (h : heap) (node : option addr)
    (buf : pystr) : option (result pystr) :=
  match node with
  | None => Some (Ok buf)
  | Some n =>
      match fuel with
      | O => None
      | S fuel' =>
          match Node_repr h n with
          | Raise e => Some (Raise e)
          | Ok r =>
              match Node_parent h n with
              | Raise e => Some (Raise e)
              | Ok p => repr_walk fuel' h p (buf ++ r ++ str_lit " ")
              end
          end
      end
  end.

Definition Tree_repr (h : heap) (t : addr) : option (result pystr) :=
  match Tree_root h t with
  | Raise e => Some (Raise e)
  | Ok root =>
      match repr_walk (size h) h root [] with
      | Some (Ok buf) => Some (Ok (rstrip buf))
      | other => other
      end
  end.

End repr.

(** The repr of an ASCII str without quotes, backslashes or control
    characters, as in the __main__ block: the text in single quotes. *)
Definition quote_repr (s : pystr) : pystr :=
  str_lit "'" ++ s ++ str_lit "'".

(** s._value = [0xD800] on String 2 of the __main__ store, out of band *)
Definition ex_unencodable : heap :=
  <[2%positive := OString [0xD800]]> ex_two.

(** 5: String("\ud800"), a str that UTF-8 cannot encode, beside the
    values of the __main__ block; 6: Tree() *)
Definition ex_bad : heap := snd (String_new [0xD800] ex_values).
Definition ex_bad_tree : heap := snd (Tree_new ex_bad).


Definition repr_of (r : result pystr) : pystr :=
  match r with Ok s => s | Raise _ => [] end.

(** the accumulator of the first node overwritten, out of band *)
Definition ex_interior : heap := <[6%positive := OHasher []]> ex_two.

(** * Properties *)

(** ** SHA-256 and hexadecimal *)

Example K_is_derived :
  SHA256.K = map SHA256.frac_cube_root (SHA256.primes_upto 311)
  /\ length SHA256.K = 64%nat
  /\ nth 0 SHA256.K 0 = 0x428a2f98
  /\ nth 63 SHA256.K 0 = 0xc67178f2.
Proof. vm_compute. repeat split. Qed.

Example H0_is_derived :
  SHA256.H0 = SHA256.state_of_list
                (map SHA256.frac_square_root (SHA256.primes_upto 19))
  /\ SHA256.sa SHA256.H0 = 0x6a09e667
  /\ SHA256.sh SHA256.H0 = 0x5be0cd19.
Proof. vm_compute. repeat split. Qed.

Example sha256_empty :
  hex (SHA256.sha256 []) =
  "e3b0c44298fc1c149afbf4c8996fb92427ae41e4649b934ca495991b7852b855"%string.
Proof. vm_compute. reflexivity. Qed.

Example sha256_abc :
  hex (SHA256.sha256 (list_byte_of_string "abc")) =
  "ba7816bf8f01cfea414140de5dae2223b00361a396177a9cb410ff61f20015ad"%string.
Proof. vm_compute. reflexivity. Qed.

Example sha256_two_blocks :
  hex (SHA256.sha256 (list_byte_of_string
         "abcdbcdecdefdefgefghfghighijhijkijkljklmklmnlmnomnopnopq")) =
  "248d6a61d20638b8e5c026930c3e6039a33ce45964ff2167f6ecedd419db06c1"%string.
Proof. vm_compute. reflexivity. Qed.

Lemma sha256_length (m : bytes) : length (SHA256.sha256 m) = 32%nat.
Proof. reflexivity. Qed.

Lemma hexchar_inj (x y : Z) :
  0 <= x < 16 -> 0 <= y < 16 -> hexchar x = hexchar y -> x = y.
Proof.
  intros Hx Hy.
  assert (Ex : x = 0 \/ x = 1 \/ x = 2 \/ x = 3 \/ x = 4 \/ x = 5 \/ x = 6 \/
               x = 7 \/ x = 8 \/ x = 9 \/ x = 10 \/ x = 11 \/ x = 12 \/
               x = 13 \/ x = 14 \/ x = 15) by lia.
  assert (Ey : y = 0 \/ y = 1 \/ y = 2 \/ y = 3 \/ y = 4 \/ y = 5 \/ y = 6 \/
               y = 7 \/ y = 8 \/ y = 9 \/ y = 10 \/ y = 11 \/ y = 12 \/
               y = 13 \/ y = 14 \/ y = 15) by lia.
  clear Hx Hy.
  repeat destruct Ex as [-> | Ex]; try subst x;
    repeat destruct Ey as [-> | Ey]; try subst y;
    vm_compute; intros E; first [reflexivity | discriminate E].
Qed.

Lemma Z_of_byte_range (b : byte) : 0 <= Z_of_byte b < 256.
Proof. destruct b; vm_compute; split; congruence. Qed.

Lemma Z_of_byte_inj (a b : byte) : Z_of_byte a = Z_of_byte b -> a = b.
Proof.
  unfold Z_of_byte. intros E. apply N2Z.inj in E.
  assert (Some a = Some b) as [= ->]; [| reflexivity].
  rewrite <- (Byte.of_to_N a), <- (Byte.of_to_N b). congruence.
Qed.

Lemma hex_inj (x y : bytes) : hex x = hex y -> x = y.
Proof.
  revert y. induction x as [| a x IH]; intros [| b y]; simpl; try congruence.
  intros [= E1 E2 E3].
  pose proof (Z_of_byte_range a). pose proof (Z_of_byte_range b).
  apply hexchar_inj in E1; [| Z.div_mod_to_equations; lia ..].
  apply hexchar_inj in E2; [| Z.div_mod_to_equations; lia ..].
  f_equal; [| by apply IH].
  apply Z_of_byte_inj. Z.div_mod_to_equations. lia.
Qed.

(** ** The result monad and the store *)

Lemma bind_Ok {A B} (m : result A) (f : A -> result B) (b : B) :
  m ≫= f = Ok b -> exists a, m = Ok a /\ f a = Ok b.
Proof. destruct m as [a | e]; simpl; [eauto | discriminate]. Qed.

Lemma bind_Ok_l {A B} (a : A) (f : A -> result B) : Ok a ≫= f = f a.
Proof. reflexivity. Qed.

Lemma bind_Raise {A B} (m : result A) (f : A -> result B) (e : exn) :
  m ≫= f = Raise e ->
  m = Raise e \/ exists a, m = Ok a /\ f a = Raise e.
Proof. destruct m as [a | e']; simpl; [eauto | intros [= ->]; by left]. Qed.

Lemma Ok_inj {A} (a b : A) : Ok a = Ok b -> a = b.
Proof. by intros [= ->]. Qed.

Ltac inv_bind H :=
  let a := fresh "x" in
  let E := fresh "E" in
  apply bind_Ok in H as (a & E & H).

Lemma alloc_spec (o : obj) (h h' : heap) (a : addr) :
  alloc o h = (a, h') -> h !! a = None /\ h' = <[a := o]> h.
Proof.
  unfold alloc. intros [= <- <-]. split; [| reflexivity].
  apply not_elem_of_dom, is_fresh.
Qed.

Lemma is_value_lookup_None (h : heap) (a : addr) :
  h !! a = None -> is_value (h !! a) = false.
Proof. by intros ->. Qed.

(** ** Digests of values *)

Section digest_frame.
Variables (h : heap) (a : addr) (o : obj).
Hypothesis Hold : is_value (h !! a) = false.
Hypothesis Hnew : is_value (Some o) = false.

(** Writing an object that is no value at an address that holds no
    value leaves every digest as it was. *)
Lemma item_digest_insert (v : addr) :
  item_digest (<[a := o]> h) v = item_digest h v.
Proof using Hold Hnew.
  unfold item_digest. destruct (decide (a = v)) as [-> | Hne].
  - rewrite lookup_insert_eq.
    destruct o; try discriminate Hnew;
      destruct (h !! v) as [[]|]; try discriminate Hold; reflexivity.
  - by rewrite lookup_insert_ne.
Qed.

Lemma Array_digest_loop_insert (items : list addr) (hasher : hashlib.Hash) :
  Array_digest_loop (<[a := o]> h) items hasher
  = Array_digest_loop h items hasher.
Proof using Hold Hnew.
  revert hasher. induction items as [| v items IH]; intros hasher; simpl.
  - reflexivity.
  - rewrite item_digest_insert.
    destruct (item_digest h v); simpl; [apply IH | reflexivity].
Qed.

Lemma Value_digest_insert (v : addr) :
  Value_digest (<[a := o]> h) v = Value_digest h v.
Proof using Hold Hnew.
  unfold Value_digest. destruct (decide (a = v)) as [-> | Hne].
  - rewrite lookup_insert_eq.
    destruct o; try discriminate Hnew;
      destruct (h !! v) as [[]|]; try discriminate Hold; reflexivity.
  - rewrite lookup_insert_ne by done.
    destruct (h !! v) as [[]|]; try reflexivity.
    unfold Array_digest. by rewrite Array_digest_loop_insert.
Qed.
End digest_frame.

Lemma item_digest_mono (h h' : heap) (v : addr) (d : bytes) :
  h ⊆ h' -> item_digest h v = Ok d -> item_digest h' v = Ok d.
Proof.
  unfold item_digest. intros Hsub.
  destruct (h !! v) as [ob |] eqn:E; [| discriminate].
  by rewrite (lookup_weaken _ _ _ _ E Hsub).
Qed.

Lemma Array_digest_loop_mono (h h' : heap) (items : list addr)
    (hasher m : hashlib.Hash) :
  h ⊆ h' ->
  Array_digest_loop h items hasher = Ok m ->
  Array_digest_loop h' items hasher = Ok m.
Proof.
  intros Hsub. revert hasher.
  induction items as [| v items IH]; intros hasher; simpl; [done |].
  intros H. inv_bind H.
  rewrite (item_digest_mono _ _ _ _ Hsub E). simpl. by apply IH.
Qed.

Lemma Value_digest_mono (h h' : heap) (v : addr) (d : bytes) :
  h ⊆ h' -> Value_digest h v = Ok d -> Value_digest h' v = Ok d.
Proof.
  unfold Value_digest. intros Hsub.
  destruct (h !! v) as [ob |] eqn:E; [| discriminate].
  rewrite (lookup_weaken _ _ _ _ E Hsub).
  destruct ob; try done.
  unfold Array_digest. intros H. inv_bind H.
  by rewrite (Array_digest_loop_mono _ _ _ _ _ Hsub E0).
Qed.

(** The loop of Array.digest feeds the digests of the elements, in
    order, to the hasher it was given. *)
Lemma Array_digest_loop_spec (h : heap) (items : list addr)
    (ds : list bytes) (hasher : hashlib.Hash) :
  Forall2 (fun v d => item_digest h v = Ok d) items ds ->
  Array_digest_loop h items hasher = Ok (fold_left hashlib.update ds hasher).
Proof.
  intros HF. revert hasher.
  induction HF as [| v d items ds Hd _ IH]; intros hasher; simpl.
  - reflexivity.
  - rewrite Hd. simpl. apply IH.
Qed.

Lemma fold_update_concat (ds : list bytes) (hasher : hashlib.Hash) :
  fold_left hashlib.update ds hasher = (hasher ++ concat ds)%list.
Proof.
  revert hasher. induction ds as [| d ds IH]; intros hasher; simpl.
  - by rewrite app_nil_r.
  - rewrite IH. unfold hashlib.update. by rewrite <- app_assoc.
Qed.

(** C6: the digest of an Array is the finalization of a hasher that
    starts with nothing fed and is updated with the digest of each
    element in order, that is SHA-256 of the concatenation of the
    digests of the elements: a flat fold. *)
Theorem Array_digest_flat_fold (h : heap) (a : addr) (items : list addr)
    (ds : list bytes) :
  h !! a = Some (OArray items) ->
  Forall2 (fun v d => item_digest h v = Ok d) items ds ->
  Value_digest h a
    = Ok (hashlib.digest
            (fold_left hashlib.update ds (hashlib.copy (hashlib.sha256 []))))
  /\ Value_digest h a = Ok (SHA256.sha256 (concat ds)).
Proof.
  intros Ha HF. unfold Value_digest, Array_digest. rewrite Ha.
  rewrite (Array_digest_loop_spec _ _ _ _ HF). simpl.
  split; [reflexivity |].
  by rewrite fold_update_concat.
Qed.

(** C10: the digest of an Array with no elements is SHA-256 of the empty
    byte sequence, which is what a fresh copy of INIT_HASHER gives. *)
Theorem Array_digest_empty (h : heap) :
  Array_digest h [] = Ok (SHA256.sha256 [])
  /\ Array_digest h [] = Ok (hashlib.digest (hashlib.copy INIT_HASHER))
  /\ (x ← Array_digest h []; Ok (hex x)) =
     Ok "e3b0c44298fc1c149afbf4c8996fb92427ae41e4649b934ca495991b7852b855"%string.
Proof.
  split; [reflexivity | split; [reflexivity |]].
  change (Ok (hex (SHA256.sha256 [])) = Ok
    "e3b0c44298fc1c149afbf4c8996fb92427ae41e4649b934ca495991b7852b855"%string).
  by rewrite sha256_empty.
Qed.

(** ** str.encode() and String.digest *)

Lemma utf8_codepoint_surrogate (c : codepoint) :
  is_surrogate c = true -> utf8_codepoint c = Raise UnicodeEncodeError.
Proof.
  unfold utf8_codepoint. intros H. rewrite H.
  unfold is_surrogate in H.
  apply andb_true_iff in H as [H1 H2].
  apply Z.leb_le in H1. apply Z.leb_le in H2.
  destruct (Z.ltb_spec c 0x80); [lia |].
  destruct (Z.ltb_spec c 0x800); [lia |].
  reflexivity.
Qed.

Lemma utf8_codepoint_encodable (c : codepoint) :
  is_surrogate c = false ->
  exists b, utf8_codepoint c = Ok b /\ (1 <= length b <= 4)%nat.
Proof.
  unfold utf8_codepoint. intros ->.
  repeat match goal with
         | |- context [if ?b then _ else _] => destruct b
         end; eexists; (split; [reflexivity | simpl; lia]).
Qed.

Lemma str_encode_surrogate (s : pystr) :
  existsb is_surrogate s = true -> str_encode s = Raise UnicodeEncodeError.
Proof.
  induction s as [| c s IH]; simpl; [discriminate |].
  destruct (is_surrogate c) eqn:Ec; simpl.
  - intros _. by rewrite utf8_codepoint_surrogate.
  - intros H. destruct (utf8_codepoint_encodable c Ec) as (b & -> & _).
    simpl. by rewrite IH.
Qed.

Lemma str_encode_encodable (s : pystr) :
  existsb is_surrogate s = false -> exists b, str_encode s = Ok b.
Proof.
  induction s as [| c s IH]; simpl; [eauto |].
  intros H. apply orb_false_iff in H as [Ec Hs].
  destruct (utf8_codepoint_encodable c Ec) as (b & -> & _).
  destruct (IH Hs) as (bs & ->). simpl. eauto.
Qed.

(** Bytes and bit operations of the encoder as arithmetic. *)
Lemma Z_of_byte_of_Z (z : Z) : Z_of_byte (byte_of_Z z) = z mod 256.
Proof.
  unfold Z_of_byte, byte_of_Z.
  assert (Hr : 0 <= z mod 256 < 256) by (apply Z.mod_pos_bound; lia).
  destruct (Byte.of_N (Z.to_N (z mod 256))) as [b |] eqn:E.
  - apply Byte.to_of_N in E. rewrite E. lia.
  - apply Byte.of_N_None_iff in E. lia.
Qed.

Lemma lor_high_low (a k y : Z) :
  0 <= k -> 0 <= y < 2 ^ k -> Z.lor (a * 2 ^ k) y = a * 2 ^ k + y.
Proof.
  intros Hk Hy.
  assert (Hland : Z.land (a * 2 ^ k) y = 0).
  { apply Z.bits_inj'. intros n Hn.
    rewrite Z.land_spec, Z.bits_0.
    destruct (Z.lt_ge_cases n k) as [Hlt | Hge].
    - by rewrite Z.mul_pow2_bits_low.
    - rewrite <- (Z.mod_small y (2 ^ k)) by lia.
      rewrite Z.mod_pow2_bits_high by lia. apply andb_false_r. }
  rewrite <- Z.lxor_lor by exact Hland.
  symmetry. by apply Z.add_nocarry_lxor.
Qed.

Lemma Z_of_continuation (x : Z) :
  Z_of_byte (continuation x) = 128 + x mod 64.
Proof.
  unfold continuation. rewrite Z_of_byte_of_Z.
  change 0x3F with (Z.ones 6). rewrite Z.land_ones by lia.
  assert (Hr : 0 <= x mod 2 ^ 6 < 2 ^ 6) by (apply Z.mod_pos_bound; lia).
  rewrite (lor_high_low 2 6) by lia.
  change (2 ^ 6) with 64 in *. rewrite Z.mod_small; lia.
Qed.

Lemma Z_of_leading (hi w k c : Z) :
  0 <= k -> 0 <= w ->
  0 <= c / 2 ^ k < 2 ^ w ->
  0 <= hi * 2 ^ w + c / 2 ^ k < 256 ->
  Z_of_byte (byte_of_Z (Z.lor (hi * 2 ^ w) (Z.shiftr c k)))
  = hi * 2 ^ w + c / 2 ^ k.
Proof.
  intros Hk Hw Hc Hr. rewrite Z_of_byte_of_Z, Z.shiftr_div_pow2 by lia.
  rewrite lor_high_low by lia. by apply Z.mod_small.
Qed.

(** The first code point of an encoding is read back. *)
Lemma utf8_decode_first_encode (c : codepoint) (b rest : bytes) :
  valid_codepoint c ->
  utf8_codepoint c = Ok b ->
  utf8_decode_first (b ++ rest) = Some (c, rest) /\ (1 <= length b)%nat.
Proof.
  unfold valid_codepoint, utf8_codepoint. intros Hc.
  destruct (Z.ltb_spec c 0x80) as [H1 | H1].
  { intros [= <-]. simpl. rewrite Z_of_byte_of_Z, Z.mod_small by lia.
    destruct (Z.ltb_spec c 128); [| lia]. split; [done | lia]. }
  destruct (Z.ltb_spec c 0x800) as [H2 | H2].
  { intros [= <-].
    change (Z.lor 0xC0 (Z.shiftr c 6))
      with (Z.lor (6 * 2 ^ 5) (Z.shiftr c 6)).
    cbn [app utf8_decode_first].
    rewrite Z_of_leading
      by (change (2 ^ 6) with 64; change (2 ^ 5) with 32;
          try (Z.div_mod_to_equations; lia)).
    rewrite Z_of_continuation.
    change (6 * 2 ^ 5) with 192. change (2 ^ 6) with 64.
    destruct (Z.ltb_spec (192 + c / 64) 128);
      [Z.div_mod_to_equations; lia |].
    destruct (Z.ltb_spec (192 + c / 64) 224);
      [| Z.div_mod_to_equations; lia].
    split; [| simpl; lia]. do 2 f_equal. Z.div_mod_to_equations. lia. }
  destruct (is_surrogate c); [discriminate |].
  destruct (Z.ltb_spec c 0x10000) as [H3 | H3].
  { intros [= <-].
    change (Z.lor 0xE0 (Z.shiftr c 12))
      with (Z.lor (14 * 2 ^ 4) (Z.shiftr c 12)).
    cbn [app utf8_decode_first].
    rewrite Z_of_leading
      by (change (2 ^ 12) with 4096; change (2 ^ 4) with 16;
          try (Z.div_mod_to_equations; lia)).
    rewrite !Z_of_continuation, Z.shiftr_div_pow2 by lia.
    change (14 * 2 ^ 4) with 224.
    change (2 ^ 6) with 64. change (2 ^ 12) with 4096.
    destruct (Z.ltb_spec (224 + c / 4096) 128);
      [Z.div_mod_to_equations; lia |].
    destruct (Z.ltb_spec (224 + c / 4096) 224);
      [Z.div_mod_to_equations; lia |].
    destruct (Z.ltb_spec (224 + c / 4096) 240);
      [| Z.div_mod_to_equations; lia].
    split; [| simpl; lia]. do 2 f_equal. Z.div_mod_to_equations. lia. }
  intros [= <-].
  change (Z.lor 0xF0 (Z.shiftr c 18))
    with (Z.lor (30 * 2 ^ 3) (Z.shiftr c 18)).
  cbn [app utf8_decode_first].
  rewrite Z_of_leading
    by (change (2 ^ 18) with 262144; change (2 ^ 3) with 8;
        try (Z.div_mod_to_equations; lia)).
  rewrite !Z_of_continuation, !Z.shiftr_div_pow2 by lia.
  change (30 * 2 ^ 3) with 240.
  change (2 ^ 6) with 64. change (2 ^ 12) with 4096.
  change (2 ^ 18) with 262144.
  destruct (Z.ltb_spec (240 + c / 262144) 128);
    [Z.div_mod_to_equations; lia |].
  destruct (Z.ltb_spec (240 + c / 262144) 224);
    [Z.div_mod_to_equations; lia |].
  destruct (Z.ltb_spec (240 + c / 262144) 240);
    [Z.div_mod_to_equations; lia |].
  split; [| simpl; lia]. do 2 f_equal. Z.div_mod_to_equations. lia.
Qed.

Lemma utf8_decode_fuel_encode (s : pystr) (b : bytes) (fuel : nat) :
  Forall valid_codepoint s ->
  str_encode s = Ok b ->
  (length b <= fuel)%nat ->
  utf8_decode_fuel fuel b = Some s.
Proof.
  intros Hs. revert b fuel.
  induction Hs as [| c s Hc _ IH]; intros b fuel; simpl.
  - intros [= <-] _. by destruct fuel.
  - intros H Hfuel. inv_bind H. inv_bind H. injection H as <-.
    destruct (utf8_decode_first_encode c x x0 Hc E) as [Hfirst Hlen].
    rewrite length_app in Hfuel.
    destruct fuel as [| fuel]; [lia |].
    destruct x as [| b0 x]; [simpl in Hlen; lia |].
    change (utf8_decode_fuel (S fuel) ((b0 :: x) ++ x0))
      with (match utf8_decode_first ((b0 :: x) ++ x0) with
            | Some (c, rest) =>
                match utf8_decode_fuel fuel rest with
                | Some cs => Some (c :: cs)
                | None => None
                end
            | None => None
            end).
    rewrite Hfirst, (IH x0 fuel E0); [done |].
    simpl in Hfuel. lia.
Qed.

(** Contents that differ have encodings that differ. *)
Lemma str_encode_inj (s1 s2 : pystr) (b : bytes) :
  Forall valid_codepoint s1 -> Forall valid_codepoint s2 ->
  str_encode s1 = Ok b -> str_encode s2 = Ok b -> s1 = s2.
Proof.
  intros H1 H2 E1 E2.
  pose proof (utf8_decode_fuel_encode s1 b (length b) H1 E1 (le_n _)).
  pose proof (utf8_decode_fuel_encode s2 b (length b) H2 E2 (le_n _)).
  congruence.
Qed.

(** C9: String.digest raises UnicodeEncodeError exactly for a content
    with a code point that UTF-8 cannot encode (a surrogate); for every
    other content it raises nothing and returns the 32-byte SHA-256 digest
    of bytes from which the content is read back unchanged: nothing is
    replaced or dropped. *)
Theorem String_digest_error_iff (s : pystr) :
  Forall valid_codepoint s ->
  if existsb is_surrogate s
  then String_digest s = Raise UnicodeEncodeError
  else exists b, str_encode s = Ok b
                 /\ utf8_decode b = Some s
                 /\ String_digest s = Ok (SHA256.sha256 b)
                 /\ length (SHA256.sha256 b) = 32%nat.
Proof.
  intros Hs. unfold String_digest.
  destruct (existsb is_surrogate s) eqn:E.
  - by rewrite str_encode_surrogate.
  - destruct (str_encode_encodable s E) as (b & Hb).
    exists b. rewrite Hb. split_and!; try done.
    by apply utf8_decode_fuel_encode.
Qed.

Lemma String_digest_error_iff_witness :
  exists b, str_encode [0xE9; 0x20AC; 0x1F600] = Ok b
            /\ utf8_decode b = Some [0xE9; 0x20AC; 0x1F600]
            /\ String_digest [0xE9; 0x20AC; 0x1F600] = Ok (SHA256.sha256 b)
            /\ length (SHA256.sha256 b) = 32%nat.
Proof.
  apply (String_digest_error_iff [0xE9; 0x20AC; 0x1F600]).
  repeat constructor; unfold valid_codepoint; lia.
Defined.

Example str_encode_euro :
  str_encode [0xE9; 0x20AC; 0x1F600]
  = Ok [xc3; xa9; xe2; x82; xac; xf0; x9f; x98; x80]
  /\ String_digest [0x61; 0xD800] = Raise UnicodeEncodeError.
Proof. split; reflexivity. Qed.

Lemma Array_digest_of_items (h : heap) (items : list addr) (ds : list bytes) :
  Forall2 (fun v d => item_digest h v = Ok d) items ds ->
  Array_digest h items = Ok (SHA256.sha256 (concat ds)).
Proof.
  intros HF. unfold Array_digest.
  rewrite (Array_digest_loop_spec _ _ _ _ HF), fold_update_concat.
  reflexivity.
Qed.

(** ** The order of the elements of an Array

    Two Strings with different contents have different encodings.  When
    the Arrays [x, y] and [y, x] have the same digest, SHA-256 gives the
    same digest for the two encodings, or for the two different
    concatenations of the 32-byte digests of the Strings. *)
Lemma swapped_Array_digest_collision (h : heap) (x y : addr)
    (sx sy : pystr) (bx by_ d : bytes) :
  h !! x = Some (OString sx) -> h !! y = Some (OString sy) ->
  Forall valid_codepoint sx -> Forall valid_codepoint sy ->
  sx <> sy ->
  str_encode sx = Ok bx -> str_encode sy = Ok by_ ->
  Array_digest h [x; y] = Ok d -> Array_digest h [y; x] = Ok d ->
  bx <> by_ /\
  (SHA256.sha256 bx = SHA256.sha256 by_
   \/ ((SHA256.sha256 bx ++ SHA256.sha256 by_)%list
        <> (SHA256.sha256 by_ ++ SHA256.sha256 bx)%list
       /\ SHA256.sha256 (SHA256.sha256 bx ++ SHA256.sha256 by_)
          = SHA256.sha256 (SHA256.sha256 by_ ++ SHA256.sha256 bx))).
Proof.
  intros Hx Hy Vx Vy Hne Ex Ey Hxy Hyx.
  assert (Hb : bx <> by_).
  { intros ->. apply Hne. by eapply str_encode_inj. }
  split; [exact Hb |].
  assert (Dx : item_digest h x = Ok (SHA256.sha256 bx)).
  { unfold item_digest, String_digest. by rewrite Hx, Ex. }
  assert (Dy : item_digest h y = Ok (SHA256.sha256 by_)).
  { unfold item_digest, String_digest. by rewrite Hy, Ey. }
  remember (SHA256.sha256 bx) as dx eqn:Edx.
  remember (SHA256.sha256 by_) as dy eqn:Edy.
  assert (Lx : length dx = 32%nat) by (subst dx; apply sha256_length).
  assert (Ly : length dy = 32%nat) by (subst dy; apply sha256_length).
  unfold Array_digest in Hxy, Hyx.
  rewrite (Array_digest_loop_spec h [x; y] [dx; dy]) in Hxy
    by (repeat constructor; assumption).
  rewrite (Array_digest_loop_spec h [y; x] [dy; dx]) in Hyx
    by (repeat constructor; assumption).
  rewrite fold_update_concat in Hxy, Hyx.
  cbn [concat app hashlib.copy hashlib.sha256 INIT_HASHER mbind result_bind]
    in Hxy, Hyx.
  unfold hashlib.copy, hashlib.sha256, INIT_HASHER, hashlib.digest in Hxy, Hyx.
  cbn [app] in Hxy, Hyx. rewrite app_nil_r in Hxy, Hyx.
  apply Ok_inj in Hxy. apply Ok_inj in Hyx.
  destruct (List.list_eq_dec Byte.byte_eq_dec dx dy) as [Heq | Hdiff].
  - by left.
  - right. split; [| congruence].
    intros E. apply app_inj_1 in E as [E _]; [done | congruence].
Qed.

(** ** Node.__init__ and Tree.append *)

Lemma fed_functional (h : heap) (node : option addr) (m1 m2 : hashlib.Hash) :
  fed h node m1 -> fed h node m2 -> m1 = m2.
Proof.
  destruct node as [n |]; simpl.
  - intros (hp & v & p & Hn & Hh) (hp' & v' & p' & Hn' & Hh'). congruence.
  - congruence.
Qed.

(** The constructor allocates a hasher and a node, both at addresses that
    were free, and writes nowhere else.  The new hasher holds what the
    hasher of the parent held, followed by the digest of the value. *)
Lemma Node_init_spec (v : addr) (p : option addr) (h h' : heap) (n : addr) :
  Node_init v p h = Ok (n, h') ->
  exists hp m d,
    fed h p m /\ Value_digest h v = Ok d /\
    h !! hp = None /\ h !! n = None /\ hp ≠ n /\
    h' = <[n := ONode hp v p]> (<[hp := OHasher (hashlib.update m d)]> h).
Proof.
  unfold Node_init. intros H.
  inv_bind H. destruct x as [hp h1].
  inv_bind H. rename x into d.
  inv_bind H. rename x into h2.
  apply Ok_inj in H.
  assert (exists m, fed h p m /\ h !! hp = None /\ h1 = <[hp := OHasher m]> h)
    as (m & Hfed & Hhp & ->).
  { destruct p as [pn |].
    - destruct (h !! pn) as [[| | | ph pv pp |] |] eqn:Epn; try discriminate.
      unfold hasher_copy in E.
      destruct (h !! ph) as [[| | m | |] |] eqn:Eph; try discriminate.
      apply Ok_inj, alloc_spec in E as [Hfresh ->].
      exists m. split; [| done]. simpl. eauto 6.
    - apply Ok_inj, alloc_spec in E as [Hfresh ->].
      exists (hashlib.copy INIT_HASHER). done. }
  rewrite Value_digest_insert in E0
    by (done || by apply is_value_lookup_None).
  unfold hasher_update in E1. rewrite lookup_insert_eq in E1.
  injection E1 as <-. rewrite insert_insert_eq in H.
  apply alloc_spec in H as [Hn ->].
  apply lookup_insert_None in Hn as [Hn Hne].
  exists hp, m, d. done.
Qed.

Lemma Tree_append_spec (t v : addr) (h h' : heap) :
  Tree_append t v h = Ok h' ->
  exists r n hp m d,
    h !! t = Some (OTree r) /\ fed h r m /\ Value_digest h v = Ok d /\
    h !! hp = None /\ h !! n = None /\ hp ≠ n /\
    h' = <[t := OTree (Some n)]>
           (<[n := ONode hp v r]>
              (<[hp := OHasher (hashlib.update m d)]> h)).
Proof.
  unfold Tree_append. intros H.
  inv_bind H. rename x into r.
  inv_bind H. destruct x as [n h1]. injection H as <-.
  apply Node_init_spec in E0 as (hp & m & d & ? & ? & ? & ? & ? & ->).
  unfold Tree_root in E.
  destruct (h !! t) as [[| | | | r'] |] eqn:Et; try discriminate.
  injection E as ->.
  exists r, n, hp, m, d. done.
Qed.

(** Apart from the Tree object itself, append writes to no object that
    exists. *)
Lemma Tree_append_frame (t v : addr) (h h' : heap) (a : addr) (o : obj) :
  Tree_append t v h = Ok h' ->
  h !! a = Some o -> a ≠ t -> h' !! a = Some o.
Proof.
  intros H Ha Hne.
  apply Tree_append_spec in H
    as (r & n & hp & m & d & Ht & _ & _ & Hhp & Hn & _ & ->).
  rewrite lookup_insert_ne by done.
  rewrite lookup_insert_ne by congruence.
  rewrite lookup_insert_ne by congruence.
  done.
Qed.

(** C1, as the code has it: the hasher of a new node is a copy of the
    hasher of its parent, so it holds every byte the parent's hasher was
    fed (not the parent's finalized digest), followed by the digest of the
    new value; the stored hash is SHA-256 of that.  With no parent the
    hasher starts with nothing fed and the hash is SHA-256 of the digest
    of the value alone. *)
Theorem Node_init_hash (v : addr) (p : option addr) (h h' : heap)
    (n : addr) (m : hashlib.Hash) (d : bytes) :
  Node_init v p h = Ok (n, h') ->
  fed h p m ->
  Value_digest h v = Ok d ->
  Node_cumulative h' n = Ok (SHA256.sha256 (m ++ d)) /\
  Node_hash h' n = Ok (hex (SHA256.sha256 (m ++ d))) /\
  (p = None -> m = [] /\ Node_cumulative h' n = Ok (SHA256.sha256 d)).
Proof.
  intros H Hfed Hd.
  apply Node_init_spec in H
    as (hp & m' & d' & Hfed' & Hd' & Hhp & Hn & Hne & ->).
  rewrite (fed_functional _ _ _ _ Hfed Hfed'). clear Hfed m.
  assert (d = d') as <- by congruence.
  assert (Node_cumulative
            (<[n := ONode hp v p]>
               (<[hp := OHasher (hashlib.update m' d)]> h)) n
          = Ok (SHA256.sha256 (m' ++ d))) as Hcum.
  { unfold Node_cumulative. rewrite lookup_insert_eq.
    rewrite lookup_insert_ne by congruence.
    by rewrite lookup_insert_eq. }
  split; [exact Hcum |]. split.
  - unfold Node_hash. rewrite lookup_insert_eq.
    rewrite lookup_insert_ne by congruence.
    by rewrite lookup_insert_eq.
  - intros ->. simpl in Hfed'. subst m'. split; [reflexivity |].
    exact Hcum.
Qed.

(** append changes the digest of no value. *)
Lemma Tree_append_digest_frame (t v : addr) (h h' : heap) (w : addr) :
  Tree_append t v h = Ok h' -> Value_digest h' w = Value_digest h w.
Proof.
  intros H.
  apply Tree_append_spec in H
    as (r & n & hp & m & d & Ht & _ & _ & Hhp & Hn & Hne & ->).
  rewrite !Value_digest_insert; try done.
  - by rewrite Hhp.
  - rewrite lookup_insert_ne by done. by rewrite Hn.
  - rewrite !lookup_insert_ne by congruence. by rewrite Ht.
Qed.

(** C7: append leaves every node that exists as it was: its attributes,
    its hasher object, and so its hash, value and parent link; the value
    object it holds is the same object with the same content and the same
    digest, as is every object other than the Tree itself; the new tail
    is another object, whose parent link is the old tail. *)
Theorem Tree_append_preserves_nodes (t v : addr) (h h' : heap)
    (n hp val : addr) (par : option addr) (x : string) :
  Tree_append t v h = Ok h' ->
  h !! n = Some (ONode hp val par) ->
  Node_hash h n = Ok x ->
  h' !! n = Some (ONode hp val par) /\
  h' !! hp = h !! hp /\
  Node_hash h' n = Ok x /\
  Node_value h' n = Ok val /\
  Node_parent h' n = Ok par /\
  (is_value (h !! val) = true -> h' !! val = h !! val) /\
  Value_digest h' val = Value_digest h val /\
  (forall a o, h !! a = Some o -> a <> t -> h' !! a = Some o) /\
  (Tree_root h t = Ok (Some n) ->
   exists n', Tree_root h' t = Ok (Some n') /\ n' ≠ n /\
              Node_parent h' n' = Ok (Some n)).
Proof.
  intros H Hn Hx.
  assert (Htree : exists r, h !! t = Some (OTree r)).
  { apply Tree_append_spec in H as (r & ? & ? & ? & ? & Ht & _). eauto. }
  destruct Htree as [r0 Htree].
  assert (Ht : n ≠ t) by congruence.
  pose proof (Tree_append_frame _ _ _ _ _ _ H Hn Ht) as Hn'.
  unfold Node_hash in Hx. rewrite Hn in Hx.
  destruct (h !! hp) as [[| | m | |] |] eqn:Ehp; try discriminate.
  assert (Hhp : h' !! hp = Some (OHasher m)).
  { eapply Tree_append_frame; [exact H | exact Ehp | congruence]. }
  unfold Node_hash, Node_value, Node_parent. rewrite Hn', Hhp.
  repeat (split; [done |]).
  split.
  { intros Hval. destruct (h !! val) as [o |] eqn:Eval; [| discriminate].
    eapply Tree_append_frame; [exact H | exact Eval |].
    intros ->. rewrite Htree in Eval. injection Eval as <-. discriminate. }
  split; [by eapply Tree_append_digest_frame |].
  split; [intros a o Ha Hat; by eapply Tree_append_frame |].
  intros Hroot.
  apply Tree_append_spec in H
    as (r & n' & hp' & m' & d & Ht' & _ & _ & Hhp' & Hn'' & Hne & ->).
  unfold Tree_root in Hroot. rewrite Ht' in Hroot. injection Hroot as ->.
  exists n'. unfold Tree_root. rewrite lookup_insert_eq.
  split; [done |]. split; [congruence |].
  rewrite lookup_insert_ne by congruence.
  by rewrite lookup_insert_eq.
Qed.

(** ** Chains of nodes *)

Lemma chain_functional (h : heap) (r : option addr) (ns1 ns2 : list addr) :
  chain h r ns1 -> chain h r ns2 -> ns1 = ns2.
Proof.
  intros H1. revert ns2.
  induction H1 as [| n hp v p ns Hn _ IH]; intros ns2 H2; inversion H2; subst.
  - reflexivity.
  - f_equal. apply IH.
    match goal with
    | H : h !! n = Some (ONode _ _ ?p') |- chain h p _ =>
        replace p with p' by congruence
    end.
    assumption.
Qed.

Lemma chain_is_node (h : heap) (r : option addr) (ns : list addr) (n : addr) :
  chain h r ns -> n ∈ ns -> exists hp v p, h !! n = Some (ONode hp v p).
Proof.
  induction 1 as [| n' hp v p ns Hn _ IH]; intros Hin.
  - by apply elem_of_nil in Hin.
  - apply elem_of_cons in Hin as [-> | Hin]; eauto.
Qed.

Lemma chain_from_member (h : heap) (r : option addr) (ns : list addr)
    (n : addr) :
  chain h r ns -> n ∈ ns ->
  exists l1 l2, ns = (l1 ++ n :: l2)%list /\ chain h (Some n) (n :: l2).
Proof.
  induction 1 as [| n' hp v p ns Hn Hc IH]; intros Hin.
  - by apply elem_of_nil in Hin.
  - destruct (decide (n = n')) as [-> | Hne].
    + exists [], ns. split; [reflexivity |]. by econstructor.
    + apply elem_of_cons in Hin as [-> | Hin]; [done |].
      destruct (IH Hin) as (l1 & l2 & -> & Hc').
      exists (n' :: l1), l2. done.
Qed.

(** A chain passes through no node twice. *)
Lemma chain_NoDup (h : heap) (r : option addr) (ns : list addr) :
  chain h r ns -> NoDup ns.
Proof.
  induction 1 as [| n hp v p ns Hn Hc IH]; constructor; [| exact IH].
  intros Hin.
  destruct (chain_from_member _ _ _ _ Hc Hin) as (l1 & l2 & -> & Hc').
  assert (Hc'' : chain h (Some n) (n :: l1 ++ n :: l2)) by (by econstructor).
  pose proof (chain_functional _ _ _ _ Hc' Hc'') as E.
  apply (f_equal length) in E. simpl in E. rewrite length_app in E.
  simpl in E. lia.
Qed.

Lemma chain_length (h : heap) (r : option addr) (ns : list addr) :
  chain h r ns -> (length ns <= size h)%nat.
Proof.
  intros Hc. rewrite <- size_dom.
  unfold size at 1, set_size. simpl.
  apply submseteq_length, NoDup_submseteq; [by eapply chain_NoDup |].
  intros n Hin. apply elem_of_elements, elem_of_dom.
  destruct (chain_is_node _ _ _ _ Hc Hin) as (? & ? & ? & ->). done.
Qed.

Lemma chain_insert (h : heap) (r : option addr) (ns : list addr)
    (a : addr) (o : obj) :
  chain h r ns -> a ∉ ns -> chain (<[a := o]> h) r ns.
Proof.
  induction 1 as [| n hp v p ns Hn _ IH]; intros Ha; [constructor |].
  apply not_elem_of_cons in Ha as [Hne Ha].
  econstructor; [| by apply IH].
  rewrite lookup_insert_ne by done. exact Hn.
Qed.

Lemma chain_mono (h h' : heap) (r : option addr) (ns : list addr) :
  h ⊆ h' -> chain h r ns -> chain h' r ns.
Proof.
  intros Hsub. induction 1 as [| n hp v p ns Hn _ IH]; econstructor; eauto.
  by eapply lookup_weaken.
Qed.

(** The first loop of verify collects a chain oldest first. *)
Lemma verify_walk_chain (h : heap) (r : option addr) (ns : list addr)
    (fuel : nat) (acc : list addr) :
  chain h r ns -> (length ns <= fuel)%nat ->
  verify_walk fuel h r acc = Some (Ok (rev ns ++ acc)%list).
Proof.
  intros Hc. revert fuel acc.
  induction Hc as [| n hp v p ns Hn _ IH]; intros fuel acc Hfuel.
  - by destruct fuel.
  - destruct fuel as [| fuel]; simpl in *; [lia |].
    rewrite Hn, IH by lia. by rewrite <- app_assoc.
Qed.

Lemma Tree_len_chain (h : heap) (t : addr) (r : option addr)
    (ns : list addr) :
  h !! t = Some (OTree r) -> chain h r ns ->
  Tree_len h t = Some (length ns).
Proof.
  intros Ht Hc. unfold Tree_len, Tree_root. rewrite Ht.
  rewrite (verify_walk_chain _ _ _ _ _ Hc (chain_length _ _ _ Hc)).
  by rewrite app_nil_r, length_rev.
Qed.

(** ** Digests along a chain *)

Lemma not_elem_of_rev (a : addr) (ns : list addr) : a ∉ ns -> a ∉ rev ns.
Proof.
  intros H Hin. apply H.
  by apply list_elem_of_In, in_rev, list_elem_of_In.
Qed.

Lemma node_digest_insert (h : heap) (a : addr) (o : obj) (n : addr) :
  is_value (h !! a) = false -> is_value (Some o) = false -> n ≠ a ->
  node_digest (<[a := o]> h) n = node_digest h n.
Proof.
  intros Hold Hnew Hne. unfold node_digest, Node_value.
  rewrite lookup_insert_ne by done.
  destruct (h !! n) as [[] |]; simpl; try reflexivity.
  by apply Value_digest_insert.
Qed.

Lemma chain_digests_insert (h : heap) (a : addr) (o : obj) (ns : list addr) :
  is_value (h !! a) = false -> is_value (Some o) = false -> a ∉ ns ->
  chain_digests (<[a := o]> h) ns = chain_digests h ns.
Proof.
  intros Hold Hnew. induction ns as [| n ns IH]; intros Ha; simpl.
  - reflexivity.
  - apply not_elem_of_cons in Ha as [Hne Ha].
    rewrite node_digest_insert, IH by done. reflexivity.
Qed.

Lemma node_digest_mono (h h' : heap) (n : addr) (d : bytes) :
  h ⊆ h' -> node_digest h n = Ok d -> node_digest h' n = Ok d.
Proof.
  intros Hsub. unfold node_digest, Node_value.
  destruct (h !! n) as [ob |] eqn:E; [| discriminate].
  rewrite (lookup_weaken _ _ _ _ E Hsub).
  destruct ob; simpl; try discriminate.
  by apply Value_digest_mono.
Qed.

Lemma chain_digests_mono (h h' : heap) (ns : list addr) (ds : list bytes) :
  h ⊆ h' -> chain_digests h ns = Ok ds -> chain_digests h' ns = Ok ds.
Proof.
  intros Hsub. revert ds.
  induction ns as [| n ns IH]; intros ds; simpl; [done |].
  intros H. inv_bind H. inv_bind H.
  by rewrite (node_digest_mono _ _ _ _ Hsub E), (IH _ E0).
Qed.

Lemma chain_digests_app (h : heap) (l1 l2 : list addr) :
  chain_digests h (l1 ++ l2) =
  (ds1 ← chain_digests h l1; ds2 ← chain_digests h l2; Ok (ds1 ++ ds2)%list).
Proof.
  induction l1 as [| n l1 IH]; simpl.
  - by destruct (chain_digests h l2).
  - destruct (node_digest h n); simpl; [| reflexivity].
    rewrite IH. destruct (chain_digests h l1); simpl; [| reflexivity].
    by destruct (chain_digests h l2).
Qed.

(** The second loop of verify feeds the digests of the values of the
    collected nodes, in order, to its hasher. *)
Lemma verify_fold_spec (h : heap) (ns : list addr) (hasher : hashlib.Hash) :
  verify_fold h ns hasher =
  (ds ← chain_digests h ns; Ok (hasher ++ concat ds)%list).
Proof.
  revert hasher. induction ns as [| n ns IH]; intros hasher; simpl.
  - by rewrite app_nil_r.
  - unfold node_digest. destruct (Node_value h n) as [v |]; simpl; [| done].
    destruct (Value_digest h v) as [d |]; simpl; [| done].
    rewrite IH. destruct (chain_digests h ns) as [ds |]; simpl; [| done].
    unfold hashlib.update. by rewrite <- app_assoc.
Qed.

Lemma Tree_verify_chain (h : heap) (t : addr) (r : option addr)
    (ns : list addr) :
  h !! t = Some (OTree r) -> chain h r ns ->
  Tree_verify h t =
  Some (ds ← chain_digests h (rev ns); verify_check h r (concat ds)).
Proof.
  intros Ht Hc. unfold Tree_verify, Tree_root. rewrite Ht.
  rewrite (verify_walk_chain _ _ _ _ _ Hc (chain_length _ _ _ Hc)).
  rewrite app_nil_r, verify_fold_spec.
  by destruct (chain_digests h (rev ns)).
Qed.

(** Computing a digest raises no AssertionError. *)
Lemma str_encode_Raise (s : pystr) (e : exn) :
  str_encode s = Raise e -> e = UnicodeEncodeError.
Proof.
  induction s as [| c s IH]; simpl; [discriminate |].
  intros H. apply bind_Raise in H as [H | (b & _ & H)].
  - unfold utf8_codepoint in H.
    repeat match type of H with
           | (if ?b then _ else _) = _ => destruct b
           end; congruence.
  - apply bind_Raise in H as [H | (bs & _ & H)]; [by apply IH | discriminate].
Qed.

Lemma item_digest_Raise (h : heap) (v : addr) (e : exn) :
  item_digest h v = Raise e -> e <> AssertionError.
Proof.
  unfold item_digest, String_digest.
  destruct (h !! v) as [[s | | | |] |]; try (intros [= <-]; discriminate).
  intros H. apply bind_Raise in H as [H | (b & _ & H)]; [| discriminate].
  apply str_encode_Raise in H as ->. discriminate.
Qed.

Lemma Array_digest_loop_Raise (h : heap) (items : list addr)
    (hasher : hashlib.Hash) (e : exn) :
  Array_digest_loop h items hasher = Raise e -> e <> AssertionError.
Proof.
  revert hasher. induction items as [| v items IH]; intros hasher; simpl.
  - discriminate.
  - intros H. apply bind_Raise in H as [H | (d & _ & H)].
    + by eapply item_digest_Raise.
    + by eapply IH.
Qed.

Lemma Value_digest_Raise (h : heap) (v : addr) (e : exn) :
  Value_digest h v = Raise e -> e <> AssertionError.
Proof.
  unfold Value_digest, String_digest, Array_digest.
  destruct (h !! v) as [[s | items | | |] |]; try (intros [= <-]; discriminate).
  - intros H. apply bind_Raise in H as [H | (b & _ & H)]; [| discriminate].
    apply str_encode_Raise in H as ->. discriminate.
  - intros H. apply bind_Raise in H as [H | (b & _ & H)]; [| discriminate].
    by eapply Array_digest_loop_Raise.
Qed.

Lemma chain_digests_Raise (h : heap) (ns : list addr) (e : exn) :
  chain_digests h ns = Raise e -> e <> AssertionError.
Proof.
  induction ns as [| n ns IH]; simpl; [discriminate |].
  intros H. apply bind_Raise in H as [H | (d & _ & H)].
  - unfold node_digest, Node_value in H.
    destruct (h !! n) as [[| | | hp v p |] |]; simpl in H;
      try (injection H as <-; discriminate).
    by eapply Value_digest_Raise.
  - apply bind_Raise in H as [H | (ds & _ & H)]; [by apply IH | discriminate].
Qed.

(** ** Tree.verify *)

Lemma Node_hash_cumulative (h : heap) (r : addr) (stored : string) (d : bytes) :
  Node_hash h r = Ok stored ->
  hex d = stored <-> Node_cumulative h r = Ok d.
Proof.
  unfold Node_hash, Node_cumulative.
  destruct (h !! r) as [[| | | hp v p |] |]; try discriminate.
  destruct (h !! hp) as [[| | m | |] |]; try discriminate.
  intros [= <-]. unfold hashlib.hexdigest. split.
  - intros E. apply hex_inj in E. by rewrite E.
  - by intros [= ->].
Qed.

(** C2: verify succeeds exactly when the chain is empty or the digest
    recomputed from the values alone, oldest first, is the stored hash of
    the tail; it raises AssertionError exactly when there is a tail and the
    recomputed digest differs from its stored hash; on the empty chain it
    succeeds.  Equality of the hex strings is equality of the digests
    byte for byte. *)
Theorem Tree_verify_iff_recompute (h : heap) (t : addr) (root : option addr)
    (ns : list addr) (stored : string) :
  Tree_root h t = Ok root ->
  chain h root ns ->
  (forall r, root = Some r -> Node_hash h r = Ok stored) ->
  (root = None -> Tree_verify h t = Some (Ok tt)) /\
  (Tree_verify h t = Some (Ok tt) <->
   root = None \/ exists d, recompute h ns = Ok d /\ hex d = stored) /\
  (Tree_verify h t = Some (Raise AssertionError) <->
   root <> None /\ exists d, recompute h ns = Ok d /\ hex d <> stored) /\
  (forall r d, root = Some r ->
     (hex d = stored <-> Node_cumulative h r = Ok d)).
Proof.
  intros Ht Hc Hstored.
  assert (Ht' : h !! t = Some (OTree root)).
  { unfold Tree_root in Ht.
    destruct (h !! t) as [[] |]; try discriminate. congruence. }
  assert (Hlast : forall r d, root = Some r ->
            (hex d = stored <-> Node_cumulative h r = Ok d)).
  { intros r d ->. apply Node_hash_cumulative. by apply Hstored. }
  rewrite (Tree_verify_chain _ _ _ _ Ht' Hc). unfold recompute.
  destruct root as [r |].
  - specialize (Hstored r eq_refl).
    destruct (chain_digests h (rev ns)) as [ds | e] eqn:Eds; simpl.
    + rewrite Hstored. simpl. unfold hashlib.hexdigest, hashlib.digest.
      destruct (decide (hex (SHA256.sha256 (concat ds)) = stored)) as [E | E].
      * split_and!; [done | | | done].
        -- split; [intros _; right; eauto | done].
        -- split; [done | intros (_ & d & [= <-] & Hd); done].
      * split_and!; [done | | | done].
        -- split; [done | intros [? | (d & [= <-] & Hd)]; done].
        -- split; [intros _; split; [done | eauto] | done].
    + apply chain_digests_Raise in Eds.
      split_and!; [done | | | done].
      * split; [done | intros [? | (d & ? & _)]; done].
      * split; [congruence | intros (_ & d & ? & _); done].
  - inversion Hc; subst. simpl.
    split_and!; [done | | | done].
    + split; [intros _; by left | done].
    + split; [done | intros [? _]; done].
Qed.

(** ** Stores built with the constructors and append *)

Lemma consistent_mono (h h' : heap) (t : addr) :
  h ⊆ h' -> consistent h t -> consistent h' t.
Proof.
  intros Hsub (root & ns & ds & Ht & Hc & Hds & Hfed).
  exists root, ns, ds. repeat split.
  - by eapply lookup_weaken.
  - by eapply chain_mono.
  - by eapply chain_digests_mono.
  - destruct root as [r |]; simpl in *; [| done].
    destruct Hfed as (hp & v & p & Hr & Hhp).
    exists hp, v, p. split; by eapply lookup_weaken.
Qed.

Lemma consistent_alloc (h h' : heap) (t a : addr) (o : obj) :
  alloc o h = (a, h') -> consistent h t -> consistent h' t.
Proof.
  intros Ha. apply alloc_spec in Ha as [Hfresh ->].
  apply consistent_mono. by apply insert_subseteq.
Qed.

(** append keeps the tail's accumulator in step with the values, and the
    chain grows by the new node. *)
Lemma consistent_append (h h' : heap) (t v : addr) :
  consistent h t -> Tree_append t v h = Ok h' ->
  exists root ns n,
    h !! t = Some (OTree root) /\ chain h root ns /\
    h' !! t = Some (OTree (Some n)) /\ chain h' (Some n) (n :: ns) /\
    consistent h' t.
Proof.
  intros (root & ns & ds & Ht & Hc & Hds & Hfed) H.
  apply Tree_append_spec in H
    as (r & n & hp & m & d & Ht' & Hfed' & Hd & Hhp & Hn & Hne & ->).
  assert (r = root) as -> by congruence.
  rewrite (fed_functional _ _ _ _ Hfed' Hfed) in *. clear Hfed' m.
  assert (Hin : forall a, a ∈ ns -> exists hp v p, h !! a = Some (ONode hp v p))
    by (intros a; by eapply chain_is_node).
  assert (Hhp_ns : hp ∉ ns).
  { intros Hx. destruct (Hin _ Hx) as (? & ? & ? & ?). congruence. }
  assert (Hn_ns : n ∉ ns).
  { intros Hx. destruct (Hin _ Hx) as (? & ? & ? & ?). congruence. }
  assert (Ht_ns : t ∉ ns).
  { intros Hx. destruct (Hin _ Hx) as (? & ? & ? & ?). congruence. }
  assert (Hnt : n ≠ t) by congruence.
  assert (Hhpt : hp ≠ t) by congruence.
  assert (Hv1 : is_value (h !! hp) = false) by (by rewrite Hhp).
  assert (Hv2 : is_value
            (<[hp := OHasher (hashlib.update (concat ds) d)]> h !! n) = false).
  { rewrite lookup_insert_ne by done. by rewrite Hn. }
  assert (Hv3 : is_value
            (<[n := ONode hp v root]>
               (<[hp := OHasher (hashlib.update (concat ds) d)]> h) !! t)
            = false).
  { rewrite !lookup_insert_ne by done. by rewrite Ht. }
  assert (Hnode : <[t := OTree (Some n)]>
            (<[n := ONode hp v root]>
               (<[hp := OHasher (hashlib.update (concat ds) d)]> h)) !! n
            = Some (ONode hp v root)).
  { rewrite lookup_insert_ne by done. apply lookup_insert_eq. }
  assert (Hhasher : <[t := OTree (Some n)]>
            (<[n := ONode hp v root]>
               (<[hp := OHasher (hashlib.update (concat ds) d)]> h)) !! hp
            = Some (OHasher (hashlib.update (concat ds) d))).
  { rewrite !lookup_insert_ne by done. apply lookup_insert_eq. }
  assert (Hc' : chain (<[t := OTree (Some n)]>
            (<[n := ONode hp v root]>
               (<[hp := OHasher (hashlib.update (concat ds) d)]> h)))
            (Some n) (n :: ns)).
  { econstructor; [exact Hnode |]. by repeat apply chain_insert. }
  exists root, ns, n. split_and!; try done.
  - apply lookup_insert_eq.
  - exists (Some n), (n :: ns), (ds ++ [d])%list. split_and!; try done.
    + apply lookup_insert_eq.
    + simpl. rewrite chain_digests_app.
      rewrite !(chain_digests_insert _ _ _ (rev ns))
        by (done || by apply not_elem_of_rev).
      rewrite Hds. simpl. unfold node_digest, Node_value.
      rewrite Hnode. simpl.
      rewrite !Value_digest_insert by done. by rewrite Hd.
    + simpl. exists hp, v, root. split; [exact Hnode |].
      rewrite Hhasher. unfold hashlib.update.
      by rewrite concat_app, (app_nil_r d : concat [d] = d).
Qed.

Lemma built_consistent (t : addr) (h : heap) : built t h -> consistent h t.
Proof.
  induction 1 as [h0 h Hnew | s h a h' _ IH Ha | items h a h' _ IH Ha
                  | v h h' _ IH Happ].
  - apply alloc_spec in Hnew as [Hfresh ->].
    exists None, [], []. repeat split; try constructor.
    apply lookup_insert_eq.
  - by eapply consistent_alloc.
  - by eapply consistent_alloc.
  - destruct (consistent_append _ _ _ _ IH Happ) as (? & ? & ? & ? & ? & ? & ? & ?).
    done.
Qed.

Lemma consistent_verify (h : heap) (t : addr) :
  consistent h t -> Tree_verify h t = Some (Ok tt).
Proof.
  intros (root & ns & ds & Ht & Hc & Hds & Hfed).
  rewrite (Tree_verify_chain _ _ _ _ Ht Hc), Hds. simpl.
  destruct root as [r |]; simpl in *; [| done].
  destruct Hfed as (hp & v & p & Hr & Hhp).
  unfold Node_hash. rewrite Hr, Hhp.
  rewrite bind_Ok_l. by rewrite decide_True.
Qed.


(** append returns whenever the digest of the value can be computed. *)
Lemma Tree_append_succeeds (t v : addr) (h : heap) (d : bytes) :
  built t h -> Value_digest h v = Ok d ->
  exists h', Tree_append t v h = Ok h'.
Proof.
  intros Hb Hd. apply built_consistent in Hb.
  destruct Hb as (root & ns & ds & Ht & Hc & Hds & Hfed).
  unfold Tree_append, Tree_root. rewrite Ht. simpl.
  unfold Node_init.
  assert (exists hp h1 m,
    match root with
    | Some p => match h !! p with
                | Some (ONode ph _ _) => hasher_copy ph h
                | _ => Raise AttributeError
                end
    | None => Ok (alloc (OHasher (hashlib.copy INIT_HASHER)) h)
    end = Ok (hp, h1) /\ h !! hp = None /\ h1 = <[hp := OHasher m]> h)
    as (hp & h1 & m & -> & Hhp & ->).
  { destruct root as [r |]; simpl in Hfed.
    - destruct Hfed as (ph & pv & pp & -> & Hph).
      unfold hasher_copy. rewrite Hph.
      destruct (alloc (OHasher (hashlib.copy (concat ds))) h) as [hp h1] eqn:E.
      exists hp, h1, (hashlib.copy (concat ds)).
      apply alloc_spec in E as [? ->]. done.
    - destruct (alloc (OHasher (hashlib.copy INIT_HASHER)) h) as [hp h1] eqn:E.
      exists hp, h1, (hashlib.copy INIT_HASHER).
      apply alloc_spec in E as [? ->]. done. }
  simpl.
  rewrite Value_digest_insert by (done || by apply is_value_lookup_None).
  rewrite Hd. simpl.
  unfold hasher_update. rewrite lookup_insert_eq. simpl.
  eexists. reflexivity.
Qed.

(** ** The __main__ block *)

Example ex_two_is_main : main_build ∅ = Ok (5%positive, ex_two).
Proof. vm_compute. reflexivity. Qed.

Example ex_two_objects :
  map_to_list ex_values =
    [ (3%positive, OString (str_lit "baz"));
      (4%positive, OArray [2%positive; 3%positive]);
      (2%positive, OString (str_lit "bar"));
      (1%positive, OString (str_lit "foo")) ]
  /\ ex_two !! 5%positive = Some (OTree (Some 9%positive))
  /\ ex_two !! 9%positive = Some (ONode 8%positive 4%positive (Some 7%positive))
  /\ ex_two !! 7%positive = Some (ONode 6%positive 1%positive None)
  /\ ex_tampered !! 4%positive = Some (OArray [10%positive; 3%positive])
  /\ ex_tampered !! 10%positive = Some (OString (str_lit "quux")).
Proof. vm_compute. repeat split. Qed.

(** C3: the chain of the values String("foo") and
    Array([String("bar"), String("baz")]) verifies; after the first
    element of the Array is replaced in place by String("quux"), verify
    raises AssertionError, while the stored hash of the tail is what it
    was. *)
Theorem main_detects_tampering :
  exists (t : addr) (h h' : heap) (root : addr) (stored : string),
    main_build ∅ = Ok (t, h) /\
    Tree_verify h t = Some (Ok tt) /\
    main_tamper t h = Ok h' /\
    Tree_verify h' t = Some (Raise AssertionError) /\
    Tree_root h t = Ok (Some root) /\
    Tree_root h' t = Ok (Some root) /\
    Node_hash h root = Ok stored /\
    Node_hash h' root = Ok stored.
Proof.
  exists 5%positive, ex_two, ex_tampered, 9%positive,
    (hash_of (Node_hash ex_two 9%positive)).
  split_and!; vm_compute; reflexivity.
Qed.

(** C4, as the code has it: the hasher of the only node of
    Tree.from_iter([String("x")]) is a copy of INIT_HASHER, which has been
    fed nothing, updated with the digest of String("x"); the hash of the
    tail is SHA-256 of the 32 bytes of that digest alone. *)
Theorem single_x_hash :
  single_x ∅ = Ok (2%positive, ex_single) /\
  Tree_root ex_single 2%positive = Ok (Some 4%positive) /\
  String_digest (str_lit "x") = Ok (SHA256.sha256 (list_byte_of_string "x")) /\
  Node_cumulative ex_single 4%positive
    = Ok (SHA256.sha256 (SHA256.sha256 (list_byte_of_string "x"))) /\
  Node_hash ex_single 4%positive
    = Ok "0a325ca303eb3014c43ae004970f343634db176fa1697bcc8c9efac94626488d"%string.
Proof. split_and!; vm_compute; reflexivity. Qed.

(** The hash of that tail is not SHA-256 of the digest of the empty byte
    sequence followed by the digest of String("x"). *)
Lemma single_x_not_seeded_by_empty_digest :
  single_x ∅ = Ok (2%positive, ex_single) /\
  Tree_root ex_single 2%positive = Ok (Some 4%positive) /\
  Node_cumulative ex_single 4%positive <>
    Ok (SHA256.sha256 (SHA256.sha256 []
                       ++ SHA256.sha256 (list_byte_of_string "x"))).
Proof.
  split_and!; [vm_compute; reflexivity | vm_compute; reflexivity |].
  vm_compute. intros H. discriminate H.
Qed.

(** The hash of the second node of the __main__ chain is not SHA-256 of
    the finalized digest of the first node followed by the digest of the
    second value. *)
Lemma Node_hash_not_of_parent_digest :
  Tree_append 5%positive 4%positive ex_one = Ok ex_two /\
  Tree_root ex_two 5%positive = Ok (Some 9%positive) /\
  Node_parent ex_two 9%positive = Ok (Some 7%positive) /\
  Node_value ex_two 9%positive = Ok 4%positive /\
  exists pd d,
    Node_cumulative ex_two 7%positive = Ok pd /\
    Value_digest ex_two 4%positive = Ok d /\
    Node_cumulative ex_two 9%positive <> Ok (SHA256.sha256 (pd ++ d)).
Proof.
  split; [vm_compute; reflexivity |].
  split; [vm_compute; reflexivity |].
  split; [vm_compute; reflexivity |].
  split; [vm_compute; reflexivity |].
  exists (bytes_of (Node_cumulative ex_two 7%positive)),
         (bytes_of (Value_digest ex_two 4%positive)).
  split; [vm_compute; reflexivity |].
  split; [vm_compute; reflexivity |].
  vm_compute. intros H. discriminate H.
Qed.

(** ** The theorems at the stores of the __main__ block *)

Lemma Node_init_hash_witness :
  Node_cumulative (snd ex_init) 9%positive
    = Ok (SHA256.sha256
            (SHA256.sha256 (list_byte_of_string "foo")
             ++ bytes_of (Value_digest ex_one 4%positive))) /\
  Node_hash (snd ex_init) 9%positive
    = Ok (hex (SHA256.sha256
            (SHA256.sha256 (list_byte_of_string "foo")
             ++ bytes_of (Value_digest ex_one 4%positive)))) /\
  (Some 7%positive = None ->
   SHA256.sha256 (list_byte_of_string "foo") = [] /\
   Node_cumulative (snd ex_init) 9%positive
     = Ok (SHA256.sha256 (bytes_of (Value_digest ex_one 4%positive)))).
Proof.
  apply (Node_init_hash 4%positive (Some 7%positive) ex_one (snd ex_init)
           9%positive (SHA256.sha256 (list_byte_of_string "foo"))
           (bytes_of (Value_digest ex_one 4%positive))).
  - vm_compute. reflexivity.
  - exists 6%positive, 1%positive, None. split; vm_compute; reflexivity.
  - vm_compute. reflexivity.
Defined.

Lemma Tree_verify_iff_recompute_witness :
  Tree_verify ex_tampered 5%positive = Some (Raise AssertionError) <->
  Some 9%positive <> None /\
  exists d, recompute ex_tampered [9%positive; 7%positive] = Ok d /\
            hex d <> hash_of (Node_hash ex_tampered 9%positive).
Proof.
  apply (Tree_verify_iff_recompute ex_tampered 5%positive (Some 9%positive)
           [9%positive; 7%positive]
           (hash_of (Node_hash ex_tampered 9%positive))).
  - vm_compute. reflexivity.
  - apply (chain_cons _ _ 8%positive 4%positive (Some 7%positive));
      [vm_compute; reflexivity |].
    apply (chain_cons _ _ 6%positive 1%positive None);
      [vm_compute; reflexivity |].
    apply chain_nil.
  - intros r [= <-]. vm_compute. reflexivity.
Defined.


Lemma Array_digest_flat_fold_witness :
  Value_digest ex_values 4%positive
    = Ok (hashlib.digest
            (fold_left hashlib.update
               [SHA256.sha256 (list_byte_of_string "bar");
                SHA256.sha256 (list_byte_of_string "baz")]
               (hashlib.copy (hashlib.sha256 []))))
  /\ Value_digest ex_values 4%positive
    = Ok (SHA256.sha256
            (concat [SHA256.sha256 (list_byte_of_string "bar");
                     SHA256.sha256 (list_byte_of_string "baz")])).
Proof.
  apply (Array_digest_flat_fold ex_values 4%positive [2%positive; 3%positive]).
  - vm_compute. reflexivity.
  - repeat constructor; vm_compute; reflexivity.
Defined.

Lemma Tree_append_preserves_nodes_witness :
  ex_two !! 7%positive = Some (ONode 6%positive 1%positive None) /\
  ex_two !! 6%positive = ex_one !! 6%positive /\
  Node_hash ex_two 7%positive = Ok (hash_of (Node_hash ex_one 7%positive)) /\
  Node_value ex_two 7%positive = Ok 1%positive /\
  Node_parent ex_two 7%positive = Ok None /\
  (is_value (ex_one !! 1%positive) = true ->
   ex_two !! 1%positive = ex_one !! 1%positive) /\
  Value_digest ex_two 1%positive = Value_digest ex_one 1%positive /\
  (forall a o, ex_one !! a = Some o -> a <> 5%positive ->
               ex_two !! a = Some o) /\
  (Tree_root ex_one 5%positive = Ok (Some 7%positive) ->
   exists n', Tree_root ex_two 5%positive = Ok (Some n') /\ n' ≠ 7%positive /\
              Node_parent ex_two n' = Ok (Some 7%positive)).
Proof.
  apply (Tree_append_preserves_nodes 5%positive 4%positive ex_one ex_two
           7%positive 6%positive 1%positive None
           (hash_of (Node_hash ex_one 7%positive))).
  - vm_compute. reflexivity.
  - vm_compute. reflexivity.
  - vm_compute. reflexivity.
Defined.

(** The value held by the first node of the __main__ chain, before and
    after the second append. *)
Example ex_two_keeps_value :
  is_value (ex_one !! 1%positive) = true /\
  ex_one !! 1%positive = Some (OString (str_lit "foo")) /\
  ex_two !! 1%positive = Some (OString (str_lit "foo")).
Proof. vm_compute. repeat split. Qed.

(** * Further properties of the code *)

(** ** append and from_iter *)

(** With a Tree whose tail has an accumulator, append goes as far as the
    digest of the value goes. *)
Lemma Tree_append_eval (t v : addr) (h : heap) (root : option addr)
    (m : hashlib.Hash) :
  h !! t = Some (OTree root) -> fed h root m ->
  match Value_digest h v with
  | Ok d => exists h', Tree_append t v h = Ok h'
  | Raise e => Tree_append t v h = Raise e
  end.
Proof.
  intros Ht Hfed.
  unfold Tree_append, Tree_root. rewrite Ht. rewrite bind_Ok_l.
  unfold Node_init.
  assert (exists hp h1 m',
    match root with
    | Some p => match h !! p with
                | Some (ONode ph _ _) => hasher_copy ph h
                | _ => Raise AttributeError
                end
    | None => Ok (alloc (OHasher (hashlib.copy INIT_HASHER)) h)
    end = Ok (hp, h1) /\ h !! hp = None /\ h1 = <[hp := OHasher m']> h)
    as (hp & h1 & m' & -> & Hhp & ->).
  { destruct root as [r |]; simpl in Hfed.
    - destruct Hfed as (ph & pv & pp & -> & Hph).
      unfold hasher_copy. rewrite Hph.
      destruct (alloc (OHasher (hashlib.copy m)) h) as [hp h1] eqn:E.
      exists hp, h1, (hashlib.copy m).
      apply alloc_spec in E as [? ->]. done.
    - destruct (alloc (OHasher (hashlib.copy INIT_HASHER)) h) as [hp h1] eqn:E.
      exists hp, h1, (hashlib.copy INIT_HASHER).
      apply alloc_spec in E as [? ->]. done. }
  rewrite bind_Ok_l.
  rewrite Value_digest_insert by (done || by apply is_value_lookup_None).
  destruct (Value_digest h v) as [d | e]; [| reflexivity].
  rewrite bind_Ok_l.
  unfold hasher_update. rewrite lookup_insert_eq, bind_Ok_l.
  eexists. reflexivity.
Qed.

Lemma chain_digests_append_frame (t v : addr) (h h' : heap) (l : list addr) :
  Tree_append t v h = Ok h' ->
  (forall n, n ∈ l -> exists hp w p, h !! n = Some (ONode hp w p)) ->
  chain_digests h' l = chain_digests h l.
Proof.
  intros H. induction l as [| n l IH]; intros Hl; simpl; [reflexivity |].
  destruct (Hl n) as (hp & w & p & Hn); [by left |].
  assert (Hn' : h' !! n = Some (ONode hp w p)).
  { eapply Tree_append_frame; [exact H | exact Hn |].
    apply Tree_append_spec in H as (? & ? & ? & ? & ? & Ht & _). congruence. }
  unfold node_digest, Node_value. rewrite Hn, Hn'. rewrite !bind_Ok_l.
  rewrite (Tree_append_digest_frame _ _ _ _ w H).
  rewrite IH; [reflexivity |].
  intros n' Hin. apply Hl. by right.
Qed.

(** One append, with what it does to the chain, to the digests along it
    and to the accumulator of the tail. *)
Lemma append_step (t v : addr) (h : heap) (root : option addr)
    (ns : list addr) (ds : list bytes) (d : bytes) :
  h !! t = Some (OTree root) -> chain h root ns ->
  chain_digests h (rev ns) = Ok ds -> fed h root (concat ds) ->
  Value_digest h v = Ok d ->
  exists h' n,
    Tree_append t v h = Ok h' /\
    h' !! t = Some (OTree (Some n)) /\
    chain h' (Some n) (n :: ns) /\
    Node_value h' n = Ok v /\
    Node_parent h' n = Ok root /\
    chain_digests h' (rev (n :: ns)) = Ok (ds ++ [d])%list /\
    fed h' (Some n) (concat (ds ++ [d])).
Proof.
  intros Ht Hc Hds Hfed Hd.
  pose proof (Tree_append_eval t v h root _ Ht Hfed) as Hev.
  rewrite Hd in Hev. destruct Hev as [h' Happ].
  assert (Hcons : consistent h t) by (exists root, ns, ds; done).
  destruct (consistent_append _ _ _ _ Hcons Happ)
    as (root0 & ns0 & n & Ht0 & Hc0 & Ht' & Hc' & _).
  assert (root0 = root) as -> by congruence.
  rewrite (chain_functional _ _ _ _ Hc0 Hc) in *. clear Hc0 ns0.
  assert (exists hp, h' !! n = Some (ONode hp v root)
                     /\ h' !! hp
                        = Some (OHasher (hashlib.update (concat ds) d)))
    as (hp & Hn & Hhp).
  { pose proof Happ as Hspec. apply Tree_append_spec in Hspec
      as (r & n1 & hp & m & d' & Ht1 & Hfed' & Hd' & Hhp & Hn & Hne & ->).
    assert (r = root) as -> by congruence.
    rewrite (fed_functional _ _ _ _ Hfed' Hfed) in *.
    assert (d' = d) as -> by congruence.
    rewrite lookup_insert_eq in Ht'. injection Ht' as <-.
    assert (n1 ≠ t) by congruence.
    assert (hp ≠ t) by congruence.
    exists hp. split.
    - rewrite lookup_insert_ne by done. apply lookup_insert_eq.
    - rewrite !lookup_insert_ne by done. apply lookup_insert_eq. }
  assert (Hds' : chain_digests h' (rev (n :: ns)) = Ok (ds ++ [d])%list).
  { simpl. rewrite chain_digests_app.
    rewrite (chain_digests_append_frame _ _ _ _ (rev ns) Happ).
    - rewrite Hds. simpl. unfold node_digest, Node_value.
      rewrite Hn, !bind_Ok_l.
      rewrite (Tree_append_digest_frame _ _ _ _ v Happ), Hd. reflexivity.
    - intros n' Hin. apply (chain_is_node h root ns n' Hc).
      by apply list_elem_of_In, in_rev, list_elem_of_In. }
  exists h', n. unfold Node_value, Node_parent. rewrite Hn.
  split_and!; try done.
  simpl. exists hp, v, root. split; [exact Hn |].
  rewrite Hhp. unfold hashlib.update.
  by rewrite concat_app, (app_nil_r d : concat [d] = d).
Qed.

Lemma from_iter_loop_frame (t : addr) (vs : list addr) (h h' : heap)
    (a : addr) (o : obj) :
  from_iter_loop t vs h = Ok h' ->
  h !! a = Some o -> a ≠ t -> h' !! a = Some o.
Proof.
  revert h. induction vs as [| v vs IH]; intros h; simpl.
  - by intros [= <-].
  - intros H Ha Hne. inv_bind H.
    eapply IH; [exact H | | exact Hne].
    by eapply Tree_append_frame.
Qed.

Lemma from_iter_loop_digest_frame (t : addr) (vs : list addr) (h h' : heap)
    (w : addr) :
  from_iter_loop t vs h = Ok h' -> Value_digest h' w = Value_digest h w.
Proof.
  revert h. induction vs as [| v vs IH]; intros h; simpl.
  - by intros [= <-].
  - intros H. inv_bind H.
    rewrite (IH _ H). by eapply Tree_append_digest_frame.
Qed.

Lemma from_iter_loop_app (t : addr) (l1 l2 : list addr) (h : heap) :
  from_iter_loop t (l1 ++ l2) h =
  (h1 ← from_iter_loop t l1 h; from_iter_loop t l2 h1).
Proof.
  revert h. induction l1 as [| v l1 IH]; intros h; simpl; [reflexivity |].
  destruct (Tree_append t v h) as [h1 | e]; simpl; [apply IH | reflexivity].
Qed.

(** The loop of from_iter, started on a tree whose tail's accumulator is
    in step with its values: every value is appended, newest first along
    the parent links, and the accumulator stays in step. *)
Lemma from_iter_loop_spec (t : addr) (vs : list addr) (dvs : list bytes) :
  forall (h : heap) (root : option addr) (ns : list addr) (ds : list bytes),
  h !! t = Some (OTree root) -> chain h root ns ->
  chain_digests h (rev ns) = Ok ds -> fed h root (concat ds) ->
  Forall2 (fun v d => Value_digest h v = Ok d) vs dvs ->
  exists h' root' ns',
    from_iter_loop t vs h = Ok h' /\
    h' !! t = Some (OTree root') /\
    chain h' root' (ns' ++ ns) /\
    Forall2 (fun n v => Node_value h' n = Ok v) ns' (rev vs) /\
    chain_digests h' (rev (ns' ++ ns)) = Ok (ds ++ dvs)%list /\
    fed h' root' (concat (ds ++ dvs)).
Proof.
  revert dvs. induction vs as [| v vs IH]; intros dvs h root ns ds
    Ht Hc Hds Hfed HF; inversion HF as [| ? d ? dvs' Hd HF' ]; subst.
  - exists h, root, []. rewrite app_nil_r. simpl. split_and!; done.
  - destruct (append_step t v h root ns ds d Ht Hc Hds Hfed Hd)
      as (h1 & n & Happ & Ht1 & Hc1 & Hv1 & _ & Hds1 & Hfed1).
    assert (HF1 : Forall2 (fun v d => Value_digest h1 v = Ok d) vs dvs').
    { eapply Forall2_impl; [exact HF' |]. simpl. intros w dw Hw.
      by rewrite (Tree_append_digest_frame _ _ _ _ w Happ). }
    destruct (IH dvs' h1 (Some n) (n :: ns) (ds ++ [d])%list
                Ht1 Hc1 Hds1 Hfed1 HF1)
      as (h' & root' & ns' & Hloop & Ht' & Hc' & Hvals & Hds' & Hfed').
    exists h', root', (ns' ++ [n])%list.
    rewrite <- !app_assoc. simpl in *. rewrite <- !app_assoc in *.
    simpl in *. rewrite Happ. simpl. split_and!; try done.
    apply Forall2_app; [exact Hvals |].
    constructor; [| constructor].
    unfold Node_value in *.
    destruct (h1 !! n) as [[| | | hp w p |] |] eqn:En; try discriminate.
    rewrite (from_iter_loop_frame _ _ _ _ _ _ Hloop En); [done |].
    congruence.
Qed.

Lemma Tree_from_iter_spec (vs : list addr) (ds : list bytes) (h : heap) :
  Forall2 (fun v d => Value_digest h v = Ok d) vs ds ->
  exists t h' root ns,
    Tree_from_iter vs h = Ok (t, h') /\
    h !! t = None /\
    h' !! t = Some (OTree root) /\
    chain h' root ns /\
    Forall2 (fun n v => Node_value h' n = Ok v) ns (rev vs) /\
    chain_digests h' (rev ns) = Ok ds /\
    fed h' root (concat ds) /\
    (forall a o, h !! a = Some o -> h' !! a = Some o).
Proof.
  intros HF. unfold Tree_from_iter.
  destruct (Tree_new h) as [t h0] eqn:Enew.
  apply alloc_spec in Enew as [Hfresh ->].
  assert (HF0 : Forall2 (fun v d =>
            Value_digest (<[t := OTree None]> h) v = Ok d) vs ds).
  { eapply Forall2_impl; [exact HF |]. simpl. intros w dw Hw.
    rewrite Value_digest_insert; [done | | done]. by rewrite Hfresh. }
  destruct (from_iter_loop_spec t vs ds (<[t := OTree None]> h) None [] []
              (lookup_insert_eq _ _ _) (chain_nil _) eq_refl eq_refl HF0)
    as (h' & root & ns & Hloop & Ht & Hc & Hvals & Hds & Hfed).
  rewrite app_nil_r in *. simpl in *.
  exists t, h', root, ns. rewrite Hloop. simpl. split_and!; try done.
  intros a o Ha.
  eapply from_iter_loop_frame; [exact Hloop | | congruence].
  rewrite lookup_insert_ne by congruence. exact Ha.
Qed.

(** X1: from_iter returns for values whose digests can be computed; the
    tree it returns verifies, and the hash of its root is SHA-256 of the
    concatenation of the digests of the values in the order given, in
    hex (there is no root when no value is given). *)
Theorem Tree_from_iter_hash (vs : list addr) (ds : list bytes) (h : heap) :
  Forall2 (fun v d => Value_digest h v = Ok d) vs ds ->
  exists t h',
    Tree_from_iter vs h = Ok (t, h') /\
    Tree_verify h' t = Some (Ok tt) /\
    match vs with
    | [] => Tree_root h' t = Ok None
    | _ :: _ =>
        exists r, Tree_root h' t = Ok (Some r) /\
                  Node_hash h' r = Ok (hex (SHA256.sha256 (concat ds)))
    end.
Proof.
  intros HF.
  destruct (Tree_from_iter_spec vs ds h HF)
    as (t & h' & root & ns & Hfi & _ & Ht & Hc & Hvals & Hds & Hfed & _).
  exists t, h'. split; [exact Hfi |]. split.
  - apply consistent_verify. exists root, ns, ds. done.
  - unfold Tree_root. rewrite Ht.
    apply Forall2_length in Hvals. rewrite length_rev in Hvals.
    destruct vs as [| v vs]; destruct ns as [| n ns]; try discriminate.
    + inversion Hc; subst. reflexivity.
    + inversion Hc; subst. exists n. split; [reflexivity |].
      simpl in Hfed. destruct Hfed as (hp' & v' & p' & Hn & Hhp).
      unfold Node_hash. by rewrite Hn, Hhp.
Qed.

(** X2: the nodes of the tree from_iter returns, followed from the root
    along the parent links, hold the values in reverse order, one node a
    value; objects that existed before are left as they were. *)
Theorem Tree_from_iter_nodes (vs : list addr) (ds : list bytes) (h : heap) :
  Forall2 (fun v d => Value_digest h v = Ok d) vs ds ->
  exists t h' root ns,
    Tree_from_iter vs h = Ok (t, h') /\
    Tree_root h' t = Ok root /\
    chain h' root ns /\
    Forall2 (fun n v => Node_value h' n = Ok v) ns (rev vs) /\
    Tree_len h' t = Some (length vs) /\
    (forall a o, h !! a = Some o -> h' !! a = Some o).
Proof.
  intros HF.
  destruct (Tree_from_iter_spec vs ds h HF)
    as (t & h' & root & ns & Hfi & _ & Ht & Hc & Hvals & _ & _ & Hframe).
  exists t, h', root, ns. unfold Tree_root. rewrite Ht.
  split_and!; try done.
  rewrite (Tree_len_chain _ _ _ _ Ht Hc).
  apply Forall2_length in Hvals. rewrite length_rev in Hvals. congruence.
Qed.

(** X3: from_iter raises the exception of the first value whose digest
    cannot be computed. *)
Theorem Tree_from_iter_raises (vs1 vs2 : list addr) (v : addr)
    (ds1 : list bytes) (e : exn) (h : heap) :
  Forall2 (fun w d => Value_digest h w = Ok d) vs1 ds1 ->
  Value_digest h v = Raise e ->
  Tree_from_iter (vs1 ++ v :: vs2) h = Raise e.
Proof.
  intros HF He. unfold Tree_from_iter.
  destruct (Tree_new h) as [t h0] eqn:Enew.
  apply alloc_spec in Enew as [Hfresh ->].
  assert (Hd0 : forall w, Value_digest (<[t := OTree None]> h) w
                          = Value_digest h w).
  { intros w. rewrite Value_digest_insert; [done | | done]. by rewrite Hfresh. }
  assert (HF0 : Forall2 (fun v d =>
            Value_digest (<[t := OTree None]> h) v = Ok d) vs1 ds1).
  { eapply Forall2_impl; [exact HF |]. simpl. intros w dw Hw.
    by rewrite Hd0. }
  destruct (from_iter_loop_spec t vs1 ds1 (<[t := OTree None]> h) None [] []
              (lookup_insert_eq _ _ _) (chain_nil _) eq_refl eq_refl HF0)
    as (h1 & root & ns & Hloop & Ht & Hc & Hvals & Hds & Hfed).
  rewrite from_iter_loop_app, Hloop, bind_Ok_l.
  cbn [from_iter_loop].
  pose proof (Tree_append_eval t v h1 root _ Ht Hfed) as Hev.
  rewrite (from_iter_loop_digest_frame _ _ _ _ v Hloop), Hd0, He in Hev.
  by rewrite Hev.
Qed.


(** ** What verify reads *)

Section set_hasher.
Variables (h : heap) (hp : addr) (m m' : hashlib.Hash).
Hypothesis Hhp : h !! hp = Some (OHasher m).

Lemma verify_walk_set_hasher (fuel : nat) (node : option addr)
    (acc : list addr) :
  verify_walk fuel (<[hp := OHasher m']> h) node acc
  = verify_walk fuel h node acc.
Proof using Hhp.
  revert node acc. induction fuel as [| fuel IH]; intros [n |] acc; simpl;
    try reflexivity.
  destruct (decide (n = hp)) as [-> | Hne].
  - by rewrite lookup_insert_eq, Hhp.
  - rewrite lookup_insert_ne by done.
    destruct (h !! n) as [[] |]; try reflexivity. apply IH.
Qed.

Lemma Node_value_set_hasher (n : addr) :
  Node_value (<[hp := OHasher m']> h) n = Node_value h n.
Proof using Hhp.
  unfold Node_value. destruct (decide (n = hp)) as [-> | Hne].
  - by rewrite lookup_insert_eq, Hhp.
  - by rewrite lookup_insert_ne.
Qed.

Lemma verify_fold_set_hasher (l : list addr) (hasher : hashlib.Hash) :
  verify_fold (<[hp := OHasher m']> h) l hasher = verify_fold h l hasher.
Proof using Hhp.
  revert hasher. induction l as [| n l IH]; intros hasher; simpl;
    [reflexivity |].
  rewrite Node_value_set_hasher.
  destruct (Node_value h n) as [v |]; simpl; [| reflexivity].
  rewrite Value_digest_insert by (done || by rewrite Hhp).
  destruct (Value_digest h v); simpl; [apply IH | reflexivity].
Qed.
End set_hasher.

(** X5: verify compares with the stored hash of the tail alone: the
    accumulator of any other node can be overwritten without a change in
    what verify returns. *)
Theorem Tree_verify_ignores_interior (h : heap) (t hp : addr)
    (m m' : hashlib.Hash) :
  h !! hp = Some (OHasher m) ->
  (forall r hr v p, Tree_root h t = Ok (Some r) ->
                    h !! r = Some (ONode hr v p) -> hr <> hp) ->
  Tree_verify (<[hp := OHasher m']> h) t = Tree_verify h t.
Proof.
  intros Hhp Hroot. unfold Tree_verify.
  assert (Ht : Tree_root (<[hp := OHasher m']> h) t = Tree_root h t).
  { unfold Tree_root. destruct (decide (t = hp)) as [-> | Hne].
    - by rewrite lookup_insert_eq, Hhp.
    - by rewrite lookup_insert_ne. }
  rewrite Ht. destruct (Tree_root h t) as [root |] eqn:Eroot; [| reflexivity].
  rewrite map_size_insert_Some by (by rewrite Hhp).
  rewrite (verify_walk_set_hasher h hp m m' Hhp).
  destruct (verify_walk (size h) h root []) as [[ancestors | e] |];
    try reflexivity.
  rewrite (verify_fold_set_hasher h hp m m' Hhp).
  destruct (verify_fold h ancestors (hashlib.copy INIT_HASHER)) as [hasher |];
    simpl; [| reflexivity].
  f_equal. destruct root as [r |]; simpl; [| reflexivity].
  assert (Node_hash (<[hp := OHasher m']> h) r = Node_hash h r) as ->;
    [| reflexivity].
  unfold Node_hash. destruct (decide (r = hp)) as [-> | Hne].
  - by rewrite lookup_insert_eq, Hhp.
  - rewrite lookup_insert_ne by done.
    destruct (h !! r) as [[| | | hr v p |] |] eqn:Er; try reflexivity.
    rewrite lookup_insert_ne; [reflexivity |].
    intros <-. by eapply Hroot.
Qed.

Lemma Tree_verify_ignores_interior_witness :
  Tree_verify ex_interior 5%positive = Tree_verify ex_two 5%positive.
Proof.
  apply (Tree_verify_ignores_interior ex_two 5%positive 6%positive
           (SHA256.sha256 (list_byte_of_string "foo")) []).
  - vm_compute. reflexivity.
  - intros r hr v p Hr Hn.
    assert (r = 9%positive) as ->.
    { vm_compute in Hr. congruence. }
    vm_compute in Hn. injection Hn as <- _ _. discriminate.
Defined.

(** X6: when the digest of a value of the chain cannot be computed,
    verify raises the exception of that digest, which is no
    AssertionError. *)
Theorem Tree_verify_digest_error (h : heap) (t : addr) (root : option addr)
    (ns : list addr) (e : exn) :
  Tree_root h t = Ok root ->
  chain h root ns ->
  chain_digests h (rev ns) = Raise e ->
  Tree_verify h t = Some (Raise e) /\ e <> AssertionError.
Proof.
  intros Ht Hc He.
  assert (Ht' : h !! t = Some (OTree root)).
  { unfold Tree_root in Ht.
    destruct (h !! t) as [[] |]; try discriminate. congruence. }
  rewrite (Tree_verify_chain _ _ _ _ Ht' Hc), He. split; [reflexivity |].
  by eapply chain_digests_Raise.
Qed.

Lemma Tree_verify_digest_error_witness :
  Tree_verify ex_unencodable 5%positive = Some (Raise UnicodeEncodeError)
  /\ UnicodeEncodeError <> AssertionError.
Proof.
  apply (Tree_verify_digest_error ex_unencodable 5%positive (Some 9%positive)
           [9%positive; 7%positive]).
  - vm_compute. reflexivity.
  - apply (chain_cons _ _ 8%positive 4%positive (Some 7%positive));
      [vm_compute; reflexivity |].
    apply (chain_cons _ _ 6%positive 1%positive None);
      [vm_compute; reflexivity |].
    apply chain_nil.
  - vm_compute. reflexivity.
Defined.

(** ** The shape of digests and hashes *)

Lemma hex_length (bs : bytes) : String.length (hex bs) = (2 * length bs)%nat.
Proof. induction bs as [| b bs IH]; simpl; [reflexivity | lia]. Qed.

Lemma hexchar_digit (x : Z) :
  In (hexchar x) (list_ascii_of_string "0123456789abcdef").
Proof.
  unfold hexchar.
  destruct (Nat.lt_ge_cases (Z.to_nat x)
              (length (list_ascii_of_string "0123456789abcdef")))
    as [Hlt | Hge].
  - by apply nth_In.
  - rewrite nth_overflow by exact Hge. by left.
Qed.

Lemma hex_digits (bs : bytes) :
  Forall (fun c => In c (list_ascii_of_string "0123456789abcdef"))
         (list_ascii_of_string (hex bs)).
Proof.
  induction bs as [| b bs IH]; simpl; [constructor |].
  constructor; [apply hexchar_digit |].
  constructor; [apply hexchar_digit | exact IH].
Qed.



(** X7: the hash of a node is a string of 64 characters, each one of
    0123456789abcdef. *)
Theorem Node_hash_format (h : heap) (n : addr) (s : string) :
  Node_hash h n = Ok s ->
  String.length s = 64%nat /\
  Forall (fun c => In c (list_ascii_of_string "0123456789abcdef"))
         (list_ascii_of_string s).
Proof.
  unfold Node_hash.
  destruct (h !! n) as [[| | | hp v p |] |]; try discriminate.
  destruct (h !! hp) as [[| | m | |] |]; try discriminate.
  intros [= <-]. unfold hashlib.hexdigest, hashlib.digest. split.
  - by rewrite hex_length, sha256_length.
  - apply hex_digits.
Qed.

Lemma Node_hash_format_witness :
  String.length (hash_of (Node_hash ex_two 9%positive)) = 64%nat /\
  Forall (fun c => In c (list_ascii_of_string "0123456789abcdef"))
         (list_ascii_of_string (hash_of (Node_hash ex_two 9%positive))).
Proof.
  apply (Node_hash_format ex_two 9%positive).
  vm_compute. reflexivity.
Defined.

(** ** Digests and the contents of values *)

(** X8: the digest of an Array depends on the contents of its elements in
    their order alone: two lists of Strings with the same contents, in
    whatever stores and whichever objects, have the same digest. *)
Theorem Array_digest_contents (h h' : heap) (items items' : list addr) :
  Forall2 (fun a b => exists s, h !! a = Some (OString s)
                                /\ h' !! b = Some (OString s))
          items items' ->
  Array_digest h items = Array_digest h' items'.
Proof.
  intros HF. unfold Array_digest.
  assert (forall hasher, Array_digest_loop h items hasher
                         = Array_digest_loop h' items' hasher) as ->;
    [| reflexivity].
  induction HF as [| a b items items' (s & Ha & Hb) _ IH]; intros hasher;
    simpl; [reflexivity |].
  unfold item_digest. rewrite Ha, Hb.
  destruct (String_digest s); simpl; [apply IH | reflexivity].
Qed.

Lemma Array_digest_contents_witness :
  Array_digest ex_values [2%positive; 3%positive]
  = Array_digest ex_tampered [2%positive; 3%positive].
Proof.
  apply (Array_digest_contents ex_values ex_tampered).
  constructor; [| constructor; [| constructor]].
  - exists (str_lit "bar"). split; vm_compute; reflexivity.
  - exists (str_lit "baz"). split; vm_compute; reflexivity.
Defined.

Lemma String_digest_Ok (s : pystr) :
  existsb is_surrogate s = false ->
  exists b, str_encode s = Ok b /\ String_digest s = Ok (SHA256.sha256 b).
Proof.
  intros E. destruct (str_encode_encodable s E) as (b & Hb).
  exists b. unfold String_digest. by rewrite Hb.
Qed.

(** X9: for two Strings with different contents that UTF-8 can encode,
    the encodings differ; the digest of the Array [x, y] is SHA-256 of the
    digest of x followed by that of y, the digest of [y, x] is SHA-256 of
    the same two digests in the other order; these two inputs differ
    whenever the digests of the Strings differ.  So the digests of the two
    Arrays are equal only if SHA-256 gives the same digest for the two
    different encodings, or for these two different 64-byte inputs. *)
Theorem Array_order_or_collision (h : heap) (x y : addr) (sx sy : pystr) :
  h !! x = Some (OString sx) -> h !! y = Some (OString sy) ->
  Forall valid_codepoint sx -> Forall valid_codepoint sy ->
  existsb is_surrogate sx = false -> existsb is_surrogate sy = false ->
  sx <> sy ->
  exists bx by_ : bytes,
    str_encode sx = Ok bx /\ str_encode sy = Ok by_ /\ bx <> by_ /\
    Array_digest h [x; y]
      = Ok (SHA256.sha256 (SHA256.sha256 bx ++ SHA256.sha256 by_)) /\
    Array_digest h [y; x]
      = Ok (SHA256.sha256 (SHA256.sha256 by_ ++ SHA256.sha256 bx)) /\
    (SHA256.sha256 bx <> SHA256.sha256 by_ ->
     (SHA256.sha256 bx ++ SHA256.sha256 by_)%list
     <> (SHA256.sha256 by_ ++ SHA256.sha256 bx)%list) /\
    (Array_digest h [x; y] = Array_digest h [y; x] ->
     SHA256.sha256 bx = SHA256.sha256 by_
     \/ ((SHA256.sha256 bx ++ SHA256.sha256 by_)%list
          <> (SHA256.sha256 by_ ++ SHA256.sha256 bx)%list
         /\ SHA256.sha256 (SHA256.sha256 bx ++ SHA256.sha256 by_)
            = SHA256.sha256 (SHA256.sha256 by_ ++ SHA256.sha256 bx))).
Proof.
  intros Hx Hy Vx Vy Ex Ey Hne.
  destruct (String_digest_Ok sx Ex) as (bx & Ebx & Dx).
  destruct (String_digest_Ok sy Ey) as (by_ & Eby & Dy).
  assert (Ix : item_digest h x = Ok (SHA256.sha256 bx))
    by (unfold item_digest; by rewrite Hx).
  assert (Iy : item_digest h y = Ok (SHA256.sha256 by_))
    by (unfold item_digest; by rewrite Hy).
  assert (Hxy : Array_digest h [x; y]
                = Ok (SHA256.sha256 (SHA256.sha256 bx ++ SHA256.sha256 by_))).
  { rewrite (Array_digest_of_items h [x; y]
               [SHA256.sha256 bx; SHA256.sha256 by_])
      by (repeat constructor; assumption).
    cbn [concat]. rewrite app_nil_r. reflexivity. }
  assert (Hyx : Array_digest h [y; x]
                = Ok (SHA256.sha256 (SHA256.sha256 by_ ++ SHA256.sha256 bx))).
  { rewrite (Array_digest_of_items h [y; x]
               [SHA256.sha256 by_; SHA256.sha256 bx])
      by (repeat constructor; assumption).
    cbn [concat]. rewrite app_nil_r. reflexivity. }
  exists bx, by_.
  split; [exact Ebx |]. split; [exact Eby |].
  split; [intros ->; apply Hne; by eapply str_encode_inj |].
  split; [exact Hxy |]. split; [exact Hyx |].
  split.
  - intros Hd E. apply app_inj_1 in E as [E _]; [exact (Hd E) |].
    rewrite !sha256_length. reflexivity.
  - intros E. rewrite Hyx in E.
    exact (proj2 (swapped_Array_digest_collision h x y sx sy bx by_ _
                    Hx Hy Vx Vy Hne Ebx Eby E Hyx)).
Qed.

Lemma Array_order_or_collision_witness :
  exists bx by_ : bytes,
    str_encode (str_lit "bar") = Ok bx /\
    str_encode (str_lit "baz") = Ok by_ /\ bx <> by_ /\
    Array_digest ex_values [2%positive; 3%positive]
      = Ok (SHA256.sha256 (SHA256.sha256 bx ++ SHA256.sha256 by_)) /\
    Array_digest ex_values [3%positive; 2%positive]
      = Ok (SHA256.sha256 (SHA256.sha256 by_ ++ SHA256.sha256 bx)) /\
    (SHA256.sha256 bx <> SHA256.sha256 by_ ->
     (SHA256.sha256 bx ++ SHA256.sha256 by_)%list
     <> (SHA256.sha256 by_ ++ SHA256.sha256 bx)%list) /\
    (Array_digest ex_values [2%positive; 3%positive]
     = Array_digest ex_values [3%positive; 2%positive] ->
     SHA256.sha256 bx = SHA256.sha256 by_
     \/ ((SHA256.sha256 bx ++ SHA256.sha256 by_)%list
          <> (SHA256.sha256 by_ ++ SHA256.sha256 bx)%list
         /\ SHA256.sha256 (SHA256.sha256 bx ++ SHA256.sha256 by_)
            = SHA256.sha256 (SHA256.sha256 by_ ++ SHA256.sha256 bx))).
Proof.
  apply (Array_order_or_collision ex_values 2%positive 3%positive
           (str_lit "bar") (str_lit "baz")).
  - vm_compute. reflexivity.
  - vm_compute. reflexivity.
  - repeat constructor; unfold valid_codepoint; simpl; lia.
  - repeat constructor; unfold valid_codepoint; simpl; lia.
  - reflexivity.
  - reflexivity.
  - vm_compute. intros H. discriminate H.
Defined.

(** On the Strings of the __main__ block the two digests do differ. *)
Example bar_baz_order :
  Array_digest ex_values [2%positive; 3%positive]
  <> Array_digest ex_values [3%positive; 2%positive].
Proof. vm_compute. intros H. discriminate H. Qed.

(** ** Assigning to an element of the list of an Array *)

Section set_array.
Variables (h : heap) (a : addr) (items items' : list addr).
Hypothesis Ha : h !! a = Some (OArray items).






End set_array.












(** ** from_iter and append on the stores of the examples *)

Lemma Tree_from_iter_hash_witness :
  exists t h',
    Tree_from_iter [1%positive; 4%positive] ex_values = Ok (t, h') /\
    Tree_verify h' t = Some (Ok tt) /\
    exists r, Tree_root h' t = Ok (Some r) /\
              Node_hash h' r
              = Ok (hex (SHA256.sha256
                      (concat [SHA256.sha256 (list_byte_of_string "foo");
                               bytes_of (Value_digest ex_values 4%positive)]))).
Proof.
  apply (Tree_from_iter_hash [1%positive; 4%positive]
           [SHA256.sha256 (list_byte_of_string "foo");
            bytes_of (Value_digest ex_values 4%positive)] ex_values).
  repeat constructor; vm_compute; reflexivity.
Defined.

Lemma Tree_from_iter_nodes_witness :
  exists t h' root ns,
    Tree_from_iter [1%positive; 4%positive] ex_values = Ok (t, h') /\
    Tree_root h' t = Ok root /\
    chain h' root ns /\
    Forall2 (fun n v => Node_value h' n = Ok v) ns [4%positive; 1%positive] /\
    Tree_len h' t = Some 2%nat /\
    (forall a o, ex_values !! a = Some o -> h' !! a = Some o).
Proof.
  apply (Tree_from_iter_nodes [1%positive; 4%positive]
           [SHA256.sha256 (list_byte_of_string "foo");
            bytes_of (Value_digest ex_values 4%positive)] ex_values).
  repeat constructor; vm_compute; reflexivity.
Defined.

Lemma Tree_from_iter_raises_witness :
  Tree_from_iter ([1%positive] ++ 5%positive :: [4%positive]) ex_bad
  = Raise UnicodeEncodeError.
Proof.
  apply (Tree_from_iter_raises [1%positive] [4%positive] 5%positive
           [SHA256.sha256 (list_byte_of_string "foo")]).
  - repeat constructor; vm_compute; reflexivity.
  - vm_compute. reflexivity.
Defined.


Example ex_bad_append_raises :
  Tree_append 6%positive 5%positive ex_bad_tree = Raise UnicodeEncodeError.
Proof. vm_compute. reflexivity. Qed.

(** ** Display *)

Lemma lstrip_app (l k : pystr) :
  lstrip l <> [] -> lstrip (l ++ k) = (lstrip l ++ k)%list.
Proof.
  induction l as [| c l IH]; simpl; [done |].
  destruct (isspace c); [exact IH | reflexivity].
Qed.

Lemma rstrip_app (x y : pystr) :
  rstrip y <> [] -> rstrip (x ++ y) = (x ++ rstrip y)%list.
Proof.
  unfold rstrip. intros H.
  rewrite rev_app_distr, lstrip_app, rev_app_distr, rev_involutive;
    [reflexivity |].
  intros E. apply H. by rewrite E.
Qed.

Lemma rstrip_closing (y : pystr) :
  rstrip ((y ++ str_lit ")") ++ str_lit " ") = (y ++ str_lit ")")%list.
Proof.
  unfold rstrip. rewrite !rev_app_distr. simpl.
  by rewrite rev_involutive.
Qed.

(** A buffer of parts that each end with a closing parenthesis and are
    each followed by one space, stripped on the right, is the parts
    joined by single spaces. *)
Lemma rstrip_joined (rs : list pystr) :
  Forall (fun r => exists y, r = (y ++ str_lit ")")%list) rs ->
  rstrip (concat (map (fun r => r ++ str_lit " ") rs))%list
  = join (str_lit " ") rs.
Proof.
  induction 1 as [| r rest (y & ->) Hrest IH]; [reflexivity |].
  destruct rest as [| r2 rest].
  - simpl. rewrite app_nil_r. apply rstrip_closing.
  - change (concat (map (fun r => r ++ str_lit " ")
                        ((y ++ str_lit ")") :: r2 :: rest)))%list
      with (((y ++ str_lit ")") ++ str_lit " ")
            ++ concat (map (fun r => r ++ str_lit " ") (r2 :: rest)))%list.
    rewrite rstrip_app.
    + rewrite IH. cbn [join]. by rewrite <- !app_assoc.
    + rewrite IH. inversion Hrest as [| ? ? (y2 & ->) _]; subst.
      cbn [join]. destruct rest; destruct y2; discriminate.
Qed.

Section repr_properties.
Variable str_repr : pystr -> pystr.

Lemma Node_repr_closing (h : heap) (n : addr) (r : pystr) :
  Node_repr str_repr h n = Ok r -> exists y, r = (y ++ str_lit ")")%list.
Proof using Type.
  unfold Node_repr. intros H. inv_bind H. inv_bind H. inv_bind H.
  injection H as <-.
  exists (x0 ++ str_lit "(" ++ str_lit x1)%list. by rewrite <- !app_assoc.
Qed.

Lemma repr_walk_chain (h : heap) (root : option addr) (ns : list addr)
    (rs : list pystr) (fuel : nat) (buf : pystr) :
  chain h root ns ->
  Forall2 (fun n r => Node_repr str_repr h n = Ok r) ns rs ->
  (length ns <= fuel)%nat ->
  repr_walk str_repr fuel h root buf
  = Some (Ok (buf ++ concat (map (fun r => r ++ str_lit " ") rs))%list).
Proof using Type.
  intros Hc. revert rs fuel buf.
  induction Hc as [| n hp v p ns Hn _ IH]; intros rs fuel buf HF Hfuel.
  - inversion HF; subst. destruct fuel; simpl; by rewrite app_nil_r.
  - inversion HF as [| ? r ? rs' Hr HF']; subst.
    destruct fuel as [| fuel]; simpl in *; [lia |].
    rewrite Hr. unfold Node_parent. rewrite Hn.
    rewrite (IH rs' fuel) by (done || lia).
    by rewrite <- !app_assoc.
Qed.

(** X11: the repr of a Tree lists its nodes from the root along the
    parent links, each as the repr of its value followed by its hash in
    parentheses, separated by single spaces, with no space at the end; the
    repr of a Tree with no node is the empty string. *)
Theorem Tree_repr_format (h : heap) (t : addr) (root : option addr)
    (ns : list addr) (rs : list pystr) :
  Tree_root h t = Ok root ->
  chain h root ns ->
  Forall2 (fun n r =>
             exists v vr hash,
               Node_value h n = Ok v /\ Value_repr str_repr h v = Ok vr /\
               Node_hash h n = Ok hash /\
               r = (vr ++ str_lit "(" ++ str_lit hash ++ str_lit ")")%list)
          ns rs ->
  Tree_repr str_repr h t = Some (Ok (join (str_lit " ") rs)).
Proof using Type.
  intros Ht Hc HF.
  assert (HF' : Forall2 (fun n r => Node_repr str_repr h n = Ok r) ns rs).
  { eapply Forall2_impl; [exact HF |]. simpl.
    intros n r (v & vr & hash & Hv & Hvr & Hh & ->).
    unfold Node_repr. by rewrite Hv, bind_Ok_l, Hvr, bind_Ok_l, Hh. }
  unfold Tree_repr. rewrite Ht.
  rewrite (repr_walk_chain h root ns rs (size h) [] Hc HF'
             (chain_length _ _ _ Hc)).
  cbn [app]. rewrite rstrip_joined; [reflexivity |].
  clear -HF'. induction HF' as [| n r ns rs Hr _ IH]; constructor;
    [by eapply Node_repr_closing | exact IH].
Qed.
End repr_properties.

Lemma Tree_repr_format_witness :
  Tree_repr quote_repr ex_two 5%positive
  = Some (Ok (join (str_lit " ")
                [repr_of (Node_repr quote_repr ex_two 9%positive);
                 repr_of (Node_repr quote_repr ex_two 7%positive)])).
Proof.
  apply (Tree_repr_format quote_repr ex_two 5%positive (Some 9%positive)
           [9%positive; 7%positive]).
  - vm_compute. reflexivity.
  - apply (chain_cons _ _ 8%positive 4%positive (Some 7%positive));
      [vm_compute; reflexivity |].
    apply (chain_cons _ _ 6%positive 1%positive None);
      [vm_compute; reflexivity |].
    apply chain_nil.
  - constructor; [| constructor; [| constructor]].
    + exists 4%positive,
        (repr_of (Value_repr quote_repr ex_two 4%positive)),
        (hash_of (Node_hash ex_two 9%positive)).
      split_and!; vm_compute; reflexivity.
    + exists 1%positive,
        (repr_of (Value_repr quote_repr ex_two 1%positive)),
        (hash_of (Node_hash ex_two 7%positive)).
      split_and!; vm_compute; reflexivity.
Defined.

Example main_print_tree :
  Tree_repr quote_repr ex_two 5%positive
  = Some (Ok (str_lit
      "['bar', 'baz'](7d16301d44f1f89485eff2a4f54e212cb263e81683d938f280f54c78706c6322) 'foo'(c7ade88fc7a21498a6a5e5c385e1f68bed822b72aa63c4a9a48a02c2466ee29e)"))
  /\ Tree_repr quote_repr ex_empty 5%positive = Some (Ok []).
Proof. split; vm_compute; reflexivity. Qed.

(** ** Digests that coincide *)

(** X12: an Array with no elements and a String with the empty content
    have the same digest, SHA-256 of no bytes: the digest does not tell
    the two values apart. *)
Theorem empty_Array_empty_String (h : heap) (a b : addr) :
  h !! a = Some (OArray []) -> h !! b = Some (OString []) ->
  Value_digest h a = Ok (SHA256.sha256 []) /\
  Value_digest h b = Ok (SHA256.sha256 []).
Proof.
  intros Ha Hb. unfold Value_digest. rewrite Ha, Hb. split; reflexivity.
Qed.

Lemma empty_Array_empty_String_witness :
  Value_digest (<[2%positive := OString []]> {[1%positive := OArray []]})
               1%positive = Ok (SHA256.sha256 []) /\
  Value_digest (<[2%positive := OString []]> {[1%positive := OArray []]})
               2%positive = Ok (SHA256.sha256 []).
Proof.
  apply (empty_Array_empty_String
           (<[2%positive := OString []]> {[1%positive := OArray []]})
           1%positive 2%positive); reflexivity.
Defined.

Lemma item_digest_Value_digest (h : heap) (v : addr) (d : bytes) :
  item_digest h v = Ok d -> Value_digest h v = Ok d.
Proof.
  unfold item_digest, Value_digest.
  by destruct (h !! v) as [[] |].
Qed.

(** X13: the hash of the root of the tree that from_iter builds from
    Strings is, in hex, the digest of the Array of the same Strings: both
    are SHA-256 of the concatenation of the digests of the Strings. *)
Theorem Tree_from_iter_hash_is_Array_digest (vs : list addr)
    (ds : list bytes) (h : heap) :
  Forall2 (fun v d => item_digest h v = Ok d) vs ds ->
  vs <> [] ->
  exists t h' r d,
    Tree_from_iter vs h = Ok (t, h') /\
    Tree_root h' t = Ok (Some r) /\
    Array_digest h vs = Ok d /\
    Node_cumulative h' r = Ok d /\
    Node_hash h' r = Ok (hex d).
Proof.
  intros HF Hne.
  assert (HF' : Forall2 (fun v d => Value_digest h v = Ok d) vs ds).
  { eapply Forall2_impl; [exact HF |]. simpl.
    intros v d. apply item_digest_Value_digest. }
  destruct (Tree_from_iter_spec vs ds h HF')
    as (t & h' & root & ns & Hfi & _ & Ht & Hc & Hvals & Hds & Hfed & _).
  apply Forall2_length in Hvals. rewrite length_rev in Hvals.
  destruct root as [r |].
  - simpl in Hfed. destruct Hfed as (hp & v & p & Hr & Hhp).
    exists t, h', r, (SHA256.sha256 (concat ds)).
    unfold Tree_root, Node_cumulative, Node_hash. rewrite Ht, Hr, Hhp.
    split_and!; try done.
    by apply Array_digest_of_items.
  - inversion Hc; subst. destruct vs; [done | discriminate].
Qed.

Lemma Tree_from_iter_hash_is_Array_digest_witness :
  exists t h' r d,
    Tree_from_iter [2%positive; 3%positive] ex_values = Ok (t, h') /\
    Tree_root h' t = Ok (Some r) /\
    Array_digest ex_values [2%positive; 3%positive] = Ok d /\
    Node_cumulative h' r = Ok d /\
    Node_hash h' r = Ok (hex d).
Proof.
  apply (Tree_from_iter_hash_is_Array_digest [2%positive; 3%positive]
           [SHA256.sha256 (list_byte_of_string "bar");
            SHA256.sha256 (list_byte_of_string "baz")] ex_values).
  - repeat constructor; vm_compute; reflexivity.
  - discriminate.
Defined.
